(** * ignoreJs: a fine-grained reactivity engine (src/ignore.ts)

    The development embeds the engine of [src/ignore.ts] in Rocq:
    the subscription registry [depsMap], the execution context
    ([currentEffect], [effectsStack]), the effect wrapper built by
    [createEffect], the observed-object proxy built by [reactive], the
    registry operations [track] and [trigger] and the render sink.

    Modelling choices.
    - JavaScript values are a small tagged union.  Numbers are the integer
      valued ones plus NaN, which is what makes [===] non reflexive.
    - Objects live in a heap indexed by location; an object is a finite map
      from own string keys to properties with their [enumerable] and
      [configurable] attributes.  Prototype chains, symbol keys and
      read-only data properties are not modelled, nor is the order in which
      [Object.keys] lists the keys: the rounds of [keys.forEach] in
      [reactive] define distinct properties of a fresh object.
    - The closure [effect] allocated by each call of [createEffect] is
      identified by its index in the table [closures], which holds the
      computation [fn] it captured.
    - A [Set<Effect>] is a duplicate-free list in insertion order, the order
      in which [Set.prototype.forEach] visits it.
    - User code (the computations handed to [createEffect] and the top-level
      script) is a tree of engine calls with Rocq functions as
      continuations.
    - The engine re-enters the computations it has stored, so the
      interpreter is defined by recursion on a fuel argument and answers
      [OutOfFuel] when it is exhausted.
    - The field [log] is a ghost trace: it records which wrapper was
      invoked, which computation was run and which subscription was
      recorded.  No engine operation reads it. *)

From stdpp Require Import gmap strings list fin_maps.
From Stdlib Require Import ZArith.

Open Scope Z_scope.
Open Scope nat_scope.

(** ** Values *)

Abbreviation loc := nat.
Abbreviation eff := nat.

Inductive value : Type :=
| VUndefined
| VNull
| VBool (b : bool)
| VNumber (z : Z)
| VNaN
| VString (s : string)
| VObject (l : loc).

(** [a === b] *)
Definition strict_eq (a b : value) : bool :=
  match a, b with
  | VUndefined, VUndefined => true
  | VNull, VNull => true
  | VBool x, VBool y => bool_decide (x = y)
  | VNumber x, VNumber y => bool_decide (x = y)
  | VString x, VString y => bool_decide (x = y)
  | VObject x, VObject y => bool_decide (x = y)
  | _, _ => false
  end.

(** [a !== b] *)
Definition strict_neq (a b : value) : bool := negb (strict_eq a b).

Definition TypeError : value := VString "TypeError".

(** ** Objects *)

Inductive slot : Type :=
| DataSlot (v : value)
    (* a data property holding [v] *)
| AccessorSlot (v : value).
    (* the get/set pair of [reactive]; [v] is the variable [value] the two
       closures share *)

Record property : Type := mkProperty {
  p_slot : slot;
  p_enumerable : bool;
  p_configurable : bool }.

Abbreviation object := (gmap string property).

(** A property descriptor as handed to [Object.defineProperty]; an absent
    attribute is [None]. *)
Record descriptor : Type := mkDescriptor {
  d_slot : slot;
  d_enumerable : option bool;
  d_configurable : option bool }.

(** [Object.keys(obj)]: the own enumerable string keys. *)
Definition Object_keys (obj : object) : list string :=
  (filter (λ kp : string * property, p_enumerable kp.2 = true) (map_to_list obj)).*1.

(** [Object.defineProperty(obj, key, d)] on the property map of [obj].
    A new property takes [false] for every attribute the descriptor leaves
    out.  Redefining a non-configurable property is a TypeError ([None]). *)
Definition Object_defineProperty (obj : object) (key : string) (d : descriptor)
  : option object :=
  match obj !! key with
  | None =>
      Some (<[key := {| p_slot := d_slot d;
                        p_enumerable := default false (d_enumerable d);
                        p_configurable := default false (d_configurable d) |}]> obj)
  | Some p =>
      if p_configurable p
      then Some (<[key := {| p_slot := d_slot d;
                             p_enumerable := default (p_enumerable p) (d_enumerable d);
                             p_configurable := default (p_configurable p) (d_configurable d) |}]> obj)
      else None
  end.

(** The property an assignment or an object literal creates. *)
Definition data_property (v : value) : property :=
  {| p_slot := DataSlot v; p_enumerable := true; p_configurable := true |}.

(** An object literal [{k1: v1, ..., kn: vn}]; a repeated key keeps its last
    value. *)
Definition object_literal (props : list (string * value)) : object :=
  foldl (λ o kv, <[kv.1 := data_property kv.2]> o) ∅ props.

(** ** User computations *)

Inductive prog : Type :=
| Ret (v : value)
    (* return v *)
| Throw (v : value)
    (* throw v *)
| NewObject (props : list (string * value)) (k : loc → prog)
    (* const x = {...}; k *)
| GetProp (o : loc) (key : string) (k : value → prog)
    (* const x = o[key]; k *)
| SetProp (o : loc) (key : string) (v : value) (k : prog)
    (* o[key] = v; k *)
| CallReactive (o : loc) (k : loc → prog)
    (* const x = reactive(o); k *)
| CallCreateEffect (fn : prog) (k : prog)
    (* createEffect(() => fn); k *)
| CallRender (element content : string) (k : prog)
    (* render(element, content); k *)
| TryCatch (body : prog) (handler : value → prog) (k : value → prog).
    (* let x; try { x = body } catch (e) { x = handler(e) }; k *)

(** ** The ghost trace *)

Inductive event : Type :=
| EvTrack (target : loc) (key : string) (e : eff)
    (* [track] ran with [currentEffect = e] for this coordinate *)
| EvCall (e : eff)
    (* the wrapper [e] was invoked *)
| EvRun (e : eff)
    (* the guard passed: the wrapper [e] invoked its computation [fn] *)
| EvSet (target : loc) (key : string)
    (* an assignment stored into this property *)
| EvRender (element content : string).

Global Instance event_eq_dec : EqDecision event.
Proof. solve_decision. Defined.

(** A trace entry pairs an event with the length of [effectsStack] at the
    moment it happened: entries of nested effect runs are strictly deeper
    than those of the code that caused them. *)
Abbreviation entry := (nat * event)%type.

(** ** Global state *)

Record state : Type := mkState {
  heap : list object;
  closures : list prog;
  depsMap : gmap loc (gmap string (list eff));
  currentEffect : option eff;
  effectsStack : list eff;
  document : gmap string string;
  log : list entry }.

Definition set_heap (h : list object) (s : state) : state :=
  mkState h (closures s) (depsMap s) (currentEffect s) (effectsStack s) (document s) (log s).
Definition set_closures (c : list prog) (s : state) : state :=
  mkState (heap s) c (depsMap s) (currentEffect s) (effectsStack s) (document s) (log s).
Definition set_depsMap (d : gmap loc (gmap string (list eff))) (s : state) : state :=
  mkState (heap s) (closures s) d (currentEffect s) (effectsStack s) (document s) (log s).
Definition set_currentEffect (c : option eff) (s : state) : state :=
  mkState (heap s) (closures s) (depsMap s) c (effectsStack s) (document s) (log s).
Definition set_effectsStack (st : list eff) (s : state) : state :=
  mkState (heap s) (closures s) (depsMap s) (currentEffect s) st (document s) (log s).
Definition set_document (d : gmap string string) (s : state) : state :=
  mkState (heap s) (closures s) (depsMap s) (currentEffect s) (effectsStack s) d (log s).
Definition record (ev : event) (s : state) : state :=
  mkState (heap s) (closures s) (depsMap s) (currentEffect s) (effectsStack s) (document s)
          (log s ++ [(length (effectsStack s), ev)]).

(** The state of a freshly loaded module, over a page with the given mount
    points. *)
Definition init (doc : gmap string string) : state :=
  mkState [] [] ∅ None [] doc [].

(** ** The monad of the engine: state, exceptions, fuel *)

Inductive result (A : Type) : Type :=
| Normal (a : A)
| Thrown (v : value)
| OutOfFuel.
Arguments Normal {A} a.
Arguments Thrown {A} v.
Arguments OutOfFuel {A}.

Definition M (A : Type) : Type := state → result A * state.

Definition ret {A} (a : A) : M A := λ s, (Normal a, s).
Definition throw {A} (v : value) : M A := λ s, (Thrown v, s).
Definition bind {A B} (m : M A) (f : A → M B) : M B :=
  λ s, match m s with
       | (Normal a, s') => f a s'
       | (Thrown v, s') => (Thrown v, s')
       | (OutOfFuel, s') => (OutOfFuel, s')
       end.

Notation "'let!' x ':=' m 'in' k" := (bind m (λ x, k))
  (at level 10, x name, m at level 100, k at level 200).
Notation "m ';;;' k" := (bind m (λ _, k))
  (at level 100, k at level 200, right associativity).

(** [l.forEach(f)] *)
Fixpoint forEach {A B} (f : A → M B) (l : list A) : M unit :=
  match l with
  | [] => ret tt
  | x :: l' => f x ;;; forEach f l'
  end.

(** ** Arrays and sets of effects *)

Fixpoint indexOf_from (i : Z) (x : eff) (l : list eff) : Z :=
  match l with
  | [] => (-1)%Z
  | y :: l' => if decide (x = y) then i else indexOf_from (i + 1)%Z x l'
  end.

(** [l.indexOf(x)] *)
Definition Array_indexOf (x : eff) (l : list eff) : Z := indexOf_from 0%Z x l.

(** The array left by [l.pop()]. *)
Definition Array_pop (l : list eff) : list eff := take (pred (length l)) l.

(** [dep.add(e)] *)
Definition Set_add (e : eff) (dep : list eff) : list eff :=
  if decide (e ∈ dep) then dep else dep ++ [e].

(** ** track (lines 72-90) *)

Definition track (target : loc) (key : string) (s : state) : state :=
  match currentEffect s with
  | None => s
  | Some e =>
      let deps := default ∅ (depsMap s !! target) in
      let dep := default [] (deps !! key) in
      record (EvTrack target key e)
        (set_depsMap (<[target := <[key := Set_add e dep]> deps]> (depsMap s)) s)
  end.

(** ** render (lines 35-40)

    The document is the collaborator outside the engine.  It is reduced to
    the selectors it answers, each with the content shown there: the markup
    of [content] is not parsed and every selector is taken to be valid. *)

Definition render (element content : string) : M unit := λ s,
  let s := record (EvRender element content) s in
  match document s !! element with
  | Some _ => (Normal tt, set_document (<[element := content]> (document s)) s)
  | None => (Normal tt, s)
  end.

(** ** Property reads: [o[key]] *)

Definition prop_get (o : loc) (key : string) : M value := λ s,
  match heap s !! o with
  | None => (Thrown TypeError, s)
  | Some obj =>
      match obj !! key with
      | None => (Normal VUndefined, s)
      | Some p =>
          match p_slot p with
          | DataSlot v => (Normal v, s)
          | AccessorSlot v =>
              (* get() { track(reactiveObj, key); return value; } *)
              (Normal v, track o key s)
          end
      end
  end.

(** ** reactive (lines 43-69) *)

(** One round of [keys.forEach]: read [obj[key]] and install the accessor
    pair on [reactiveObj]. *)
Definition install (obj reactiveObj : loc) (key : string) : M unit :=
  let! v := prop_get obj key in
  λ s, match heap s !! reactiveObj with
       | None => (Thrown TypeError, s)
       | Some ro =>
           match Object_defineProperty ro key
                   {| d_slot := AccessorSlot v;
                      d_enumerable := None; d_configurable := None |} with
           | Some ro' => (Normal tt, set_heap (<[reactiveObj := ro']> (heap s)) s)
           | None => (Thrown TypeError, s)
           end
       end.

Definition reactive (obj : loc) : M loc := λ s,
  match heap s !! obj with
  | None => (Thrown TypeError, s)
  | Some o =>
      let keys := Object_keys o in
      let reactiveObj := length (heap s) in
      (forEach (install obj reactiveObj) keys ;;; ret reactiveObj)
        (set_heap (heap s ++ [∅]) s)
  end.

(** ** The operations that call back into user code *)

(** The subscriber set the registry holds for a coordinate; empty when the
    target or the key has no entry. *)
Definition subscribers (s : state) (target : loc) (key : string) : list eff :=
  default [] (default ∅ (depsMap s !! target) !! key).

(** Lines 20-21: [currentEffect = effect; effectsStack.push(effect)]. *)
Definition enter (e : eff) (s : state) : state :=
  let s := set_currentEffect (Some e) s in
  set_effectsStack (effectsStack s ++ [e]) s.

(** Lines 25-27, the [finally] block: [effectsStack.pop();
    currentEffect = effectsStack[effectsStack.length - 1] || null]. *)
Definition leave (s : state) : state :=
  let s := set_effectsStack (Array_pop (effectsStack s)) s in
  set_currentEffect (last (effectsStack s)) s.

(** The computation captured by the closure [e]. *)
Definition fn_of (s : state) (e : eff) : prog :=
  default (Ret VUndefined) (closures s !! e).

Section Engine.
(** [call p] runs a user computation; the interpreter below instantiates
    it with itself at a smaller fuel. *)
Variable call : prog → M value.

(** The closure [effect] of [createEffect] (lines 16-30), invoked with no
    argument. *)
Definition effect_call (e : eff) : M value := λ s,
  let s := record (EvCall e) s in
  if bool_decide (Array_indexOf e (effectsStack s) = (-1)%Z) then
    match call (fn_of s e) (enter e (record (EvRun e) s)) with
    | (OutOfFuel, s') => (OutOfFuel, s')
    | (r, s') => (r, leave s')
    end
  else (Normal VUndefined, s).

(** createEffect (lines 14-32) *)
Definition createEffect (fn : prog) : M unit := λ s,
  let effect := length (closures s) in
  (effect_call effect ;;; ret tt) (set_closures (closures s ++ [fn]) s).

(** trigger (lines 93-107) *)
Definition trigger (target : loc) (key : string) : M unit := λ s,
  match depsMap s !! target with
  | None => (Normal tt, s)
  | Some deps =>
      match deps !! key with
      | None => (Normal tt, s)
      | Some dep =>
          let effectsToRun := dep in
          forEach effect_call effectsToRun s
      end
  end.

(** The state after an assignment stored [p] under [key] of [o]. *)
Definition store (o : loc) (obj : object) (key : string) (p : property)
    (s : state) : state :=
  record (EvSet o key) (set_heap (<[o := <[key := p]> obj]> (heap s)) s).

(** Property writes: [o[key] = v] *)
Definition prop_set (o : loc) (key : string) (newValue : value) : M unit := λ s,
  match heap s !! o with
  | None => (Thrown TypeError, s)
  | Some obj =>
      match obj !! key with
      | None => (Normal tt, store o obj key (data_property newValue) s)
      | Some p =>
          match p_slot p with
          | DataSlot _ =>
              (Normal tt,
               store o obj key
                 (mkProperty (DataSlot newValue) (p_enumerable p) (p_configurable p)) s)
          | AccessorSlot value =>
              (* set(newValue) { if (newValue !== value) { value = newValue;
                                                           trigger(reactiveObj, key); } } *)
              if strict_neq newValue value then
                trigger o key
                  (store o obj key
                     (mkProperty (AccessorSlot newValue) (p_enumerable p) (p_configurable p))
                     s)
              else (Normal tt, s)
          end
      end
  end.

(** One node of a user computation. *)
Definition exec_step (p : prog) : M value :=
  match p with
  | Ret v => ret v
  | Throw v => throw v
  | NewObject props k =>
      λ s, call (k (length (heap s))) (set_heap (heap s ++ [object_literal props]) s)
  | GetProp o key k => let! v := prop_get o key in call (k v)
  | SetProp o key v k => prop_set o key v ;;; call k
  | CallReactive o k => let! r := reactive o in call (k r)
  | CallCreateEffect fn k => createEffect fn ;;; call k
  | CallRender element content k => render element content ;;; call k
  | TryCatch body handler k =>
      λ s, match call body s with
           | (Normal v, s') => call (k v) s'
           | (Thrown e, s') => (let! v := call (handler e) in call (k v)) s'
           | (OutOfFuel, s') => (OutOfFuel, s')
           end
  end.
End Engine.

(** The interpreter: [exec n p] runs [p] with fuel [n]; every node of the
    computation and every call of a computation costs one unit. *)
Fixpoint exec (n : nat) (p : prog) : M value :=
  match n with
  | O => λ s, (OutOfFuel, s)
  | S n' => exec_step (exec n') p
  end.

(** ** The scenario of the specification *)

(** [String(v)] on the values the scenario renders. *)
Definition String_of (v : value) : string :=
  match v with
  | VNumber 0 => "0"
  | VNumber 1 => "1"
  | VNumber 2 => "2"
  | _ => "?"
  end.

(** [const state = reactive({count: 0});
     createEffect(() => render('#app', String(state.count)));] followed by
    [k state]. *)
Definition counter_app (k : loc → prog) : prog :=
  NewObject [("count"%string, VNumber 0)] (λ o,
  CallReactive o (λ st,
  CallCreateEffect
    (GetProp st "count" (λ v, CallRender "#app" (String_of v) (Ret VUndefined)))
    (k st))).

(** A document whose only mount point is [#app], empty at first. *)
Definition page : gmap string string := {[ "#app"%string := ""%string ]}.

(** ** Well-formed states

    The invariant every state the engine can reach satisfies.  It ties the
    registry and the execution context to the trace. *)

(** The computation of [e] has been run: [e] was the current effect then. *)
Definition ran (s : state) (e : eff) : Prop := ∃ d, (d, EvRun e) ∈ log s.

(** The events of the trace, without their depths. *)
Definition events (s : state) : list event := (log s).*2.

Record wf (s : state) : Prop := mkWf {
  wf_cur : currentEffect s = last (effectsStack s);
  wf_subs : ∀ o k e, e ∈ subscribers s o k ↔ ∃ d, (d, EvTrack o k e) ∈ log s;
  wf_nodup : ∀ o k, NoDup (subscribers s o k);
  wf_stack_ran : ∀ e, e ∈ effectsStack s → ran s e;
  wf_track_ran : ∀ o k e d, (d, EvTrack o k e) ∈ log s → ran s e;
  wf_call_ran : ∀ e d, (d, EvCall e) ∈ log s → ran s e;
  wf_stack_valid : ∀ e, e ∈ effectsStack s → e < length (closures s);
  wf_subs_valid : ∀ o k e, e ∈ subscribers s o k → e < length (closures s) }.

(** ** Frames

    What a finished or interrupted piece of execution may have done to the
    state it started from; [delta] is the part of the trace it wrote and [n]
    bounds the objects whose properties are accounted for. *)

Definition finished {A} (r : result A) : Prop :=
  match r with OutOfFuel => False | _ => True end.

Definition stored (s : state) (o : loc) (key : string) : option property :=
  heap s !! o ≫= (λ obj : object, obj !! key).

Record frame (n : nat) (s : state) (fin : Prop) (delta : list entry) (s' : state)
  : Prop := mkFrame {
  fr_log : log s' = log s ++ delta;
  fr_stack : fin → effectsStack s' = effectsStack s;
  fr_depth : Forall (λ x : entry, length (effectsStack s) ≤ x.1) delta;
  fr_guard : ∀ e d, e ∈ effectsStack s → (d, EvRun e) ∉ delta;
  fr_closures : closures s `prefix_of` closures s';
  fr_length : length (heap s) ≤ length (heap s');
  fr_heap : ∀ o k, o < n → (∀ d, (d, EvSet o k) ∉ delta) →
              stored s' o k = stored s o k;
  fr_subs : ∀ o k, (∀ d e, (d, EvTrack o k e) ∉ delta) →
              subscribers s' o k = subscribers s o k }.

(** The trace of one invocation of the wrapper [e] at depth [d], [st] being
    the stack at that moment. *)
Definition call_trace (d : nat) (st : list eff) (e : eff) (delta : list entry) : Prop :=
  if decide (e ∈ st) then delta = [(d, EvCall e)]
  else ∃ nested, delta = (d, EvCall e) :: (d, EvRun e) :: nested ∧
                 Forall (λ x : entry, d < x.1) nested.

(** The trace of a notification pass over the effects [l]. *)
Inductive pass_trace (d : nat) (st : list eff) : list eff → list entry → Prop :=
| pass_nil : pass_trace d st [] []
| pass_cons e l de dl :
    call_trace d st e de → pass_trace d st l dl → pass_trace d st (e :: l) (de ++ dl).

(** The wrappers a trace shows invoked at depth [d], in order. *)
Definition calls_at (d : nat) (delta : list entry) : list eff :=
  omap (λ x : entry, match x with
                     | (d', EvCall e) => if decide (d' = d) then Some e else None
                     | _ => None
                     end) delta.

(** The computations a trace shows run at depth [d], in order. *)
Definition runs_at (d : nat) (delta : list entry) : list eff :=
  omap (λ x : entry, match x with
                     | (d', EvRun e) => if decide (d' = d) then Some e else None
                     | _ => None
                     end) delta.

(** ** Definitions used by the statements *)

(** The trace entry [track] writes, if any. *)
Definition track_delta (o : loc) (k : string) (s : state) : list entry :=
  match currentEffect s with
  | Some e => [(length (effectsStack s), EvTrack o k e)]
  | None => []
  end.

(** The number of occurrences of [x] in [l]. *)
Definition occ {A} `{EqDecision A} (x : A) (l : list A) : nat :=
  length (filter (λ y, y = x) l).

(** The page of the specification after [reactive({count: 0})] and the
    creation of the rendering effect: object 1 is the observed object and
    effect 0 the renderer. *)
Definition counter_state : state :=
  (exec 20 (counter_app (λ _, Ret VUndefined)) (init page)).2.

(** The same state while effect 0 is running. *)
Definition counter_state_running : state :=
  enter 0 (record (EvRun 0) (record (EvCall 0) counter_state)).

(** A page with one observed object (object 1, property [p], initially 0)
    and two effects that read [p]: effect 0 throws whenever it reads a value
    other than 0, effect 1 only reads. *)
Definition fragile_app (k : loc → prog) : prog :=
  NewObject [("p"%string, VNumber 0)] (λ o,
  CallReactive o (λ st,
  CallCreateEffect
    (GetProp st "p" (λ v, if strict_eq v (VNumber 0) then Ret VUndefined
                          else Throw (VString "boom")))
  (CallCreateEffect (GetProp st "p" (λ _, Ret VUndefined))
  (k st)))).

(** The state once both effects have made their first run. *)
Definition fragile_state : state :=
  (exec 20 (fragile_app (λ _, Ret VUndefined)) (init page)).2.

(** The state in which the set accessor of [p] calls [trigger] during the
    assignment [p = 1]. *)
Definition fragile_state_stored : state :=
  store 1 {[ "p"%string := mkProperty (AccessorSlot (VNumber 0)) false false ]} "p"
    (mkProperty (AccessorSlot (VNumber 1)) false false) fragile_state.

(** A page with one observed object (object 1, properties [p] and [q]) and
    two effects: effect 0 reads [p] and nothing else; effect 1 reads [q] and
    copies it into [p]. *)
Definition bridge_app (k : loc → prog) : prog :=
  NewObject [("p"%string, VNumber 0); ("q"%string, VNumber 0)] (λ o,
  CallReactive o (λ st,
  CallCreateEffect (GetProp st "p" (λ _, Ret VUndefined))
  (CallCreateEffect (GetProp st "q" (λ v, SetProp st "p" v (Ret VUndefined)))
  (k st)))).

(** The state once both effects have made their first run. *)
Definition bridge_state : state :=
  (exec 20 (bridge_app (λ _, Ret VUndefined)) (init page)).2.

(** The value [obj[key]] evaluates to. *)
Definition slot_value (p : property) : value :=
  match p_slot p with DataSlot v => v | AccessorSlot v => v end.

(** [obj[key]] for an object given by its property map. *)
Definition value_at (o : object) (k : string) : value :=
  match o !! k with Some p => slot_value p | None => VUndefined end.

(** The property [reactive] installs for a key whose value is [v]. *)
Definition accessor_property (v : value) : property :=
  mkProperty (AccessorSlot v) false false.

(** An object all of whose own properties are enumerable data properties,
    as object literals and plain assignments make them. *)
Definition plain (o : object) : Prop :=
  ∀ k p, o !! k = Some p → p_enumerable p = true ∧ ∃ v, p_slot p = DataSlot v.

(** The object built by installing the accessors for [keys] on [acc]. *)
Definition installed (o : object) (keys : list string) (acc : object) : object :=
  foldl (λ a k, <[k := accessor_property (value_at o k)]> a) acc keys.

(** A heap with one plain object, [{count: 0, inner: <object 0>}] at
    location 1, next to the plain object 0 it refers to. *)
Definition plain_state : state :=
  set_heap [object_literal [("x"%string, VNumber 7)];
            object_literal [("count"%string, VNumber 0); ("inner"%string, VObject 0)]]
    (init page).

(** A page with one observed object (object 1, property [p]) and two
    effects that read [p] and render it, each to its own mount point
    ([#app] exists, [#side] does not). *)
Definition pair_app (k : loc → prog) : prog :=
  NewObject [("p"%string, VNumber 0)] (λ o,
  CallReactive o (λ st,
  CallCreateEffect
    (GetProp st "p" (λ v, CallRender "#app" (String_of v) (Ret VUndefined)))
  (CallCreateEffect
    (GetProp st "p" (λ v, CallRender "#side" (String_of v) (Ret VUndefined)))
  (k st)))).

(** The state once both effects have made their first run. *)
Definition pair_state : state :=
  (exec 20 (pair_app (λ _, Ret VUndefined)) (init page)).2.

(** A heap with the observed object [{x: NaN}] at location 1 and one effect
    that reads [x]. *)
Definition nan_state : state :=
  (exec 20 (NewObject [("x"%string, VNaN)] (λ o,
            CallReactive o (λ st,
            CallCreateEffect (GetProp st "x" (λ _, Ret VUndefined))
            (Ret VUndefined)))) (init page)).2.

(** No accessor property of any object is enumerable. *)
Definition accessors_hidden (s : state) : Prop :=
  ∀ l (obj : object) k p v,
    heap s !! l = Some obj → obj !! k = Some p → p_slot p = AccessorSlot v →
    p_enumerable p = false.

(** The property [k] of object [o] is one of the accessors of [reactive]. *)
Definition intercepted (s : state) (o : loc) (k : string) : Prop :=
  ∃ p v, stored s o k = Some p ∧ p_slot p = AccessorSlot v.

(** What no operation of the engine undoes, between a state and a later
    one. *)
Record keeps (s s' : state) : Prop := mkKeeps {
  k_subs : ∀ o k, subscribers s o k `prefix_of` subscribers s' o k;
  k_intercepted : ∀ o k, intercepted s o k → intercepted s' o k;
  k_hidden : accessors_hidden s → accessors_hidden s';
  k_distinct : NoDup (effectsStack s) → NoDup (effectsStack s') }.

(** A computation that never calls [createEffect], whatever it reads. *)
Inductive no_create : prog → Prop :=
| nc_Ret v : no_create (Ret v)
| nc_Throw v : no_create (Throw v)
| nc_NewObject props k : (∀ l, no_create (k l)) → no_create (NewObject props k)
| nc_GetProp o key k : (∀ v, no_create (k v)) → no_create (GetProp o key k)
| nc_SetProp o key v k : no_create k → no_create (SetProp o key v k)
| nc_CallReactive o k : (∀ l, no_create (k l)) → no_create (CallReactive o k)
| nc_CallRender element content k : no_create k → no_create (CallRender element content k)
| nc_TryCatch body handler k :
    no_create body → (∀ e, no_create (handler e)) → (∀ v, no_create (k v)) →
    no_create (TryCatch body handler k).

(** A well-formed state whose stack holds no effect twice and none of whose
    effects creates effects. *)
Definition settled (s : state) : Prop :=
  wf s ∧ NoDup (effectsStack s) ∧ Forall no_create (closures s).

(** The run of [p] from [s] comes back, without a new effect. *)
Definition halts (p : prog) (s : state) : Prop :=
  ∃ n r s', exec n p s = (r, s') ∧ finished r ∧ closures s' = closures s.

(** [pass_run call l s r s' done]: invoking the wrappers of [l] one after
    the other from the state [s], and stopping at the first invocation that
    does not return normally, invokes exactly the wrappers [done] and ends
    in the state [s'] with the outcome [r]: that of the invocation that
    stopped the pass, or a normal one when none did. *)
Inductive pass_run (call : prog → M value)
  : list eff → state → result unit → state → list eff → Prop :=
| pr_done s : pass_run call [] s (Normal tt) s []
| pr_next e l s v s1 r s' done :
    effect_call call e s = (Normal v, s1) →
    pass_run call l s1 r s' done →
    pass_run call (e :: l) s r s' (e :: done)
| pr_throw e l s v s' :
    effect_call call e s = (Thrown v, s') →
    pass_run call (e :: l) s (Thrown v) s' [e]
| pr_fuel e l s s' :
    effect_call call e s = (OutOfFuel, s') →
    pass_run call (e :: l) s OutOfFuel s' [e].

(** * Proofs *)

(** ** Arrays and sets *)

Lemma indexOf_from_spec i x l :
  (0 ≤ i)%Z → (indexOf_from i x l = (-1)%Z ↔ x ∉ l).
Proof.
  revert i. induction l as [|y l IH]; intros i Hi; simpl.
  - split; [intros _; apply not_elem_of_nil | done].
  - destruct (decide (x = y)) as [->|Hne].
    + split; [lia | intros H; exfalso; apply H; left].
    + rewrite IH by lia. rewrite elem_of_cons. tauto.
Qed.

Lemma Array_indexOf_spec x l : Array_indexOf x l = (-1)%Z ↔ x ∉ l.
Proof. apply indexOf_from_spec. lia. Qed.

Lemma Array_pop_push l e : Array_pop (l ++ [e]) = l.
Proof.
  unfold Array_pop. rewrite length_app. simpl.
  replace (pred (length l + 1)) with (length l) by lia.
  by rewrite take_app_length.
Qed.

Lemma Array_pop_subseteq l : Array_pop l ⊆ l.
Proof.
  unfold Array_pop. intros x Hx. apply elem_of_take in Hx as (i & Hi & _).
  by eapply list_elem_of_lookup_2.
Qed.

Lemma Set_add_elem e x dep : x ∈ Set_add e dep ↔ x = e ∨ x ∈ dep.
Proof.
  unfold Set_add. destruct (decide (e ∈ dep)).
  - naive_solver.
  - rewrite elem_of_app, list_elem_of_singleton. naive_solver.
Qed.

Lemma Set_add_NoDup e dep : NoDup dep → NoDup (Set_add e dep).
Proof.
  unfold Set_add. intros Hnd. destruct (decide (e ∈ dep)); [done|].
  apply NoDup_app. split_and!; [done | | apply NoDup_singleton].
  intros x Hx Hx'. apply list_elem_of_singleton in Hx'. by subst.
Qed.

Lemma last_elem_of {A} (l : list A) x : last l = Some x → x ∈ l.
Proof.
  intros H. apply last_Some in H as [l' ->]. apply elem_of_app. right. left.
Qed.

(** ** Preservation of well-formedness by the state updates *)

Ltac unfold_state :=
  unfold ran, subscribers, stored, enter, leave, store, record, set_heap, set_closures,
    set_depsMap, set_currentEffect, set_effectsStack, set_document in *;
  simpl in *.

Lemma elem_of_snoc {A} (l : list A) (x y : A) : x ∈ l ++ [y] ↔ x ∈ l ∨ x = y.
Proof. rewrite elem_of_app, list_elem_of_singleton. tauto. Qed.

Lemma wf_init doc : wf (init doc).
Proof.
  constructor; unfold ran, subscribers; simpl; try done.
  - intros o k e. rewrite lookup_empty. simpl. rewrite lookup_empty. simpl.
    split; [intros H; by apply not_elem_of_nil in H
           | intros [d H]; by apply not_elem_of_nil in H].
  - intros o k. rewrite lookup_empty. simpl. rewrite lookup_empty. apply NoDup_nil_2.
  - intros e H. by apply not_elem_of_nil in H.
  - intros o k e d H. by apply not_elem_of_nil in H.
  - intros e d H. by apply not_elem_of_nil in H.
  - intros e H. by apply not_elem_of_nil in H.
  - intros o k e. rewrite lookup_empty. simpl. rewrite lookup_empty. simpl.
    intros H. by apply not_elem_of_nil in H.
Qed.

Lemma wf_set_heap h s : wf s → wf (set_heap h s).
Proof. intros []. constructor; unfold_state; done. Qed.

Lemma wf_set_document d s : wf s → wf (set_document d s).
Proof. intros []. constructor; unfold_state; done. Qed.

Lemma wf_set_closures fn s : wf s → wf (set_closures (closures s ++ [fn]) s).
Proof.
  intros [H1 H2 H3 H4 H5 H6 H7 H8]. constructor; unfold_state; try done.
  - intros e He. rewrite length_app. specialize (H7 e He). lia.
  - intros o k e He. rewrite length_app. specialize (H8 o k e He). lia.
Qed.

Lemma ran_record ev s e : ran s e → ran (record ev s) e.
Proof. intros [d H]. exists d. unfold_state. apply elem_of_snoc. by left. Qed.

Lemma wf_record ev s :
  wf s →
  (∀ o k e, ev ≠ EvTrack o k e) →
  (∀ e, ev = EvCall e → ran s e) →
  wf (record ev s).
Proof.
  intros [H1 H2 H3 H4 H5 H6 H7 H8] Hnt Hcall.
  constructor; try (unfold_state; done).
  - intros o k e. change (subscribers (record ev s) o k) with (subscribers s o k).
    rewrite H2. unfold_state. split.
    + intros [d H]. exists d. apply elem_of_snoc. by left.
    + intros [d H]. apply elem_of_snoc in H as [H|H]; [by exists d|].
      exfalso. inversion H; subst. by eapply Hnt.
  - intros e He. apply ran_record. by apply H4.
  - intros o k e d H. apply ran_record. unfold record in H; simpl in H.
    apply elem_of_snoc in H as [H|H]; [by eapply H5|].
    exfalso. inversion H; subst. by eapply Hnt.
  - intros e d H. apply ran_record. unfold record in H; simpl in H.
    apply elem_of_snoc in H as [H|H]; [by eapply H6|].
    inversion H; subst. by apply Hcall.
Qed.

Lemma wf_record_call_run e s :
  wf s → wf (record (EvRun e) (record (EvCall e) s)).
Proof.
  intros [H1 H2 H3 H4 H5 H6 H7 H8].
  assert (Hmono : ∀ x, ran s x → ran (record (EvRun e) (record (EvCall e) s)) x).
  { intros x Hx. by do 2 apply ran_record. }
  assert (Hnew : ran (record (EvRun e) (record (EvCall e) s)) e).
  { exists (length (effectsStack s)). unfold_state. apply elem_of_snoc. by right. }
  constructor; try (unfold_state; done).
  - intros o k x.
    change (subscribers (record (EvRun e) (record (EvCall e) s)) o k)
      with (subscribers s o k).
    rewrite H2. unfold record; simpl. split.
    + intros [d H]. exists d. do 2 (apply elem_of_snoc; left). done.
    + intros [d H]. apply elem_of_snoc in H as [H|H]; [|done].
      apply elem_of_snoc in H as [H|H]; [by exists d | done].
  - intros x Hx. apply Hmono. by apply H4.
  - intros o k x d H. unfold record in H; simpl in H.
    apply elem_of_snoc in H as [H|H]; [|done].
    apply elem_of_snoc in H as [H|H]; [|done].
    apply Hmono. by eapply H5.
  - intros x d H. unfold record in H; simpl in H.
    apply elem_of_snoc in H as [H|H]; [|done].
    apply elem_of_snoc in H as [H|H].
    + apply Hmono. by eapply H6.
    + inversion H; subst. done.
Qed.

Lemma wf_enter e s :
  wf s → ran s e → e < length (closures s) → wf (enter e s).
Proof.
  intros [H1 H2 H3 H4 H5 H6 H7 H8] Hran Hlt.
  constructor; try (unfold_state; done).
  - unfold_state. by rewrite last_snoc.
  - intros x Hx. unfold enter in Hx; simpl in Hx.
    apply elem_of_snoc in Hx as [Hx| ->]; [by apply H4 | done].
  - intros x Hx. unfold enter in Hx; simpl in Hx.
    apply elem_of_snoc in Hx as [Hx| ->]; [by apply H7 | done].
Qed.

Lemma wf_leave s : wf s → wf (leave s).
Proof.
  intros [H1 H2 H3 H4 H5 H6 H7 H8].
  constructor; try (unfold_state; done).
  - intros x Hx. apply H4. unfold leave in Hx; simpl in Hx.
    by apply Array_pop_subseteq.
  - intros x Hx. apply H7. unfold leave in Hx; simpl in Hx.
    by apply Array_pop_subseteq.
Qed.

(** ** track *)

Lemma track_inactive o k s : currentEffect s = None → track o k s = s.
Proof. intros H. unfold track. by rewrite H. Qed.

Lemma subscribers_track o k s e o' k' :
  currentEffect s = Some e →
  subscribers (track o k s) o' k' =
    if decide (o' = o ∧ k' = k) then Set_add e (subscribers s o k)
    else subscribers s o' k'.
Proof.
  intros Hcur. unfold track. rewrite Hcur. unfold subscribers; simpl.
  destruct (decide (o' = o ∧ k' = k)) as [[-> ->]|Hne].
  - rewrite lookup_insert_eq. simpl. by rewrite lookup_insert_eq.
  - destruct (decide (o' = o)) as [->|Ho].
    + rewrite lookup_insert_eq. simpl.
      rewrite lookup_insert_ne by (intros ->; by apply Hne). done.
    + by rewrite lookup_insert_ne.
Qed.

Lemma track_log o k s e :
  currentEffect s = Some e →
  log (track o k s) = log s ++ [(length (effectsStack s), EvTrack o k e)].
Proof. intros Hcur. unfold track. by rewrite Hcur. Qed.

Lemma track_other o k s :
  heap (track o k s) = heap s ∧ closures (track o k s) = closures s ∧
  currentEffect (track o k s) = currentEffect s ∧
  effectsStack (track o k s) = effectsStack s ∧
  document (track o k s) = document s.
Proof. unfold track. destruct (currentEffect s) eqn:E; simpl; rewrite ?E; done. Qed.

Lemma wf_track o k s : wf s → wf (track o k s).
Proof.
  intros Hwf. destruct (currentEffect s) as [e|] eqn:Hcur;
    [|by rewrite track_inactive].
  destruct (track_other o k s) as (Hh & Hc & Hce & Hst & Hd).
  pose proof Hwf as [H1 H2 H3 H4 H5 H6 H7 H8].
  assert (He : e ∈ effectsStack s).
  { apply last_elem_of. by rewrite <- H1. }
  assert (Hmono : ∀ x, ran s x → ran (track o k s) x).
  { intros x [d Hx]. exists d. rewrite (track_log _ _ _ _ Hcur).
    apply elem_of_snoc. by left. }
  constructor.
  - by rewrite Hce, Hst.
  - intros o' k' x. rewrite (subscribers_track _ _ _ _ _ _ Hcur).
    rewrite (track_log _ _ _ _ Hcur).
    destruct (decide (o' = o ∧ k' = k)) as [[-> ->]|Hne].
    + rewrite Set_add_elem, H2. split.
      * intros [->|[d H]].
        -- eexists. apply elem_of_snoc. by right.
        -- exists d. apply elem_of_snoc. by left.
      * intros [d H]. apply elem_of_snoc in H as [H|H]; [right; by exists d|].
        left. by inversion H.
    + rewrite H2. split.
      * intros [d H]. exists d. apply elem_of_snoc. by left.
      * intros [d H]. apply elem_of_snoc in H as [H|H]; [by exists d|].
        inversion H; subst. exfalso. by apply Hne.
  - intros o' k'. rewrite (subscribers_track _ _ _ _ _ _ Hcur).
    destruct (decide (o' = o ∧ k' = k)); [by apply Set_add_NoDup | done].
  - intros x Hx. rewrite Hst in Hx. apply Hmono. by apply H4.
  - intros o' k' x d H. rewrite (track_log _ _ _ _ Hcur) in H.
    apply Hmono. apply elem_of_snoc in H as [H|H]; [by eapply H5|].
    inversion H; subst. by apply H4.
  - intros x d H. rewrite (track_log _ _ _ _ Hcur) in H.
    apply Hmono. apply elem_of_snoc in H as [H|H]; [by eapply H6 | done].
  - intros x Hx. rewrite Hst in Hx. rewrite Hc. by apply H7.
  - intros o' k' x. rewrite (subscribers_track _ _ _ _ _ _ Hcur), Hc.
    destruct (decide (o' = o ∧ k' = k)) as [[-> ->]|Hne]; [|by apply H8].
    rewrite Set_add_elem. intros [->|Hx]; [by apply H7 | by eapply H8].
Qed.

(** ** Engine operations that never call back *)

Lemma wf_prop_get o k s r s' : wf s → prop_get o k s = (r, s') → wf s'.
Proof.
  intros Hwf. unfold prop_get.
  destruct (heap s !! o) as [obj|]; [|by intros [= <- <-]].
  destruct (obj !! k) as [p|]; [|by intros [= <- <-]].
  destruct (p_slot p); intros [= <- <-]; [done | by apply wf_track].
Qed.

Lemma wf_render el c s r s' : wf s → render el c s = (r, s') → wf s'.
Proof.
  intros Hwf. unfold render.
  assert (wf (record (EvRender el c) s)) by (apply wf_record; done).
  destruct (document (record (EvRender el c) s) !! el);
    intros [= <- <-]; [by apply wf_set_document | done].
Qed.

Lemma wf_install obj ro k s r s' : wf s → install obj ro k s = (r, s') → wf s'.
Proof.
  intros Hwf. unfold install, bind.
  destruct (prop_get obj k s) as [[v| |] s1] eqn:Hget;
    try (intros [= <- <-]; by eapply wf_prop_get).
  apply wf_prop_get in Hget; [|done].
  destruct (heap s1 !! ro) as [o|]; [|by intros [= <- <-]].
  destruct (Object_defineProperty _ _ _); intros [= <- <-];
    [by apply wf_set_heap | done].
Qed.

Lemma wf_forEach {A B} (f : A → M B) (l : list A) :
  (∀ x s r s', wf s → f x s = (r, s') → wf s') →
  ∀ s r s', wf s → forEach f l s = (r, s') → wf s'.
Proof.
  intros Hf. induction l as [|x l IH]; intros s r s' Hwf; simpl.
  - by intros [= <- <-].
  - unfold bind. destruct (f x s) as [[b| |] s1] eqn:Hfx;
      try (intros [= <- <-]; by eapply Hf).
    apply IH. by eapply Hf.
Qed.

Lemma wf_reactive obj s r s' : wf s → reactive obj s = (r, s') → wf s'.
Proof.
  intros Hwf. unfold reactive.
  destruct (heap s !! obj) as [o|]; [|by intros [= <- <-]].
  unfold bind.
  destruct (forEach _ _ _) as [[b| |] s1] eqn:Hloop; intros [= <- <-];
    (eapply wf_forEach in Hloop;
     [done | intros ?????; by eapply wf_install | by apply wf_set_heap]).
Qed.

(** ** Frames of the state updates *)

Lemma frame_refl n s fin : frame n s fin [] s.
Proof.
  constructor; try done.
  - by rewrite app_nil_r.
  - intros e d _ H. by apply not_elem_of_nil in H.
Qed.

Lemma frame_weaken n n' s (fin fin' : Prop) delta s' :
  frame n s fin delta s' → n' ≤ n → (fin' → fin) → frame n' s fin' delta s'.
Proof.
  intros [] Hn Hfin. constructor; try done.
  - intros H. by apply fr_stack0, Hfin.
  - intros o k Ho. apply fr_heap0. lia.
Qed.

Lemma frame_trans n s (fin1 fin : Prop) d1 s1 d2 s2 :
  frame n s fin1 d1 s1 → fin1 → frame n s1 fin d2 s2 →
  frame n s fin (d1 ++ d2) s2.
Proof.
  intros [L1 S1 D1 G1 C1 N1 H1 B1] Hfin [L2 S2 D2 G2 C2 N2 H2 B2].
  specialize (S1 Hfin). rewrite S1 in *.
  constructor.
  - by rewrite L2, L1, app_assoc.
  - intros H. by rewrite S2.
  - apply Forall_app. done.
  - intros e d He H. apply elem_of_app in H as [H|H]; [by eapply G1 | by eapply G2].
  - by etrans.
  - lia.
  - intros o k Ho Hno. rewrite H2, H1; try done.
    + intros d H. eapply Hno. apply elem_of_app. by left.
    + intros d H. eapply Hno. apply elem_of_app. by right.
  - intros o k Hno. rewrite B2, B1; try done.
    + intros d e H. eapply Hno. apply elem_of_app. by left.
    + intros d e H. eapply Hno. apply elem_of_app. by right.
Qed.

Lemma frame_record n ev s fin :
  (∀ e, ev = EvRun e → e ∉ effectsStack s) →
  frame n s fin [(length (effectsStack s), ev)] (record ev s).
Proof.
  intros Hrun. constructor; try done.
  - apply Forall_singleton. done.
  - intros e d He H. apply list_elem_of_singleton in H. inversion H; subst.
    by eapply Hrun.
Qed.

Lemma frame_set_heap n h s fin :
  length (heap s) ≤ length h →
  (∀ o, o < n → h !! o = heap s !! o) →
  frame n s fin [] (set_heap h s).
Proof.
  intros Hlen Hsame. constructor; try done.
  - unfold_state. by rewrite app_nil_r.
  - intros e d _ H. by apply not_elem_of_nil in H.
  - intros o k Ho _. unfold_state. by rewrite Hsame.
Qed.

Lemma frame_alloc obj s fin :
  frame (length (heap s)) s fin [] (set_heap (heap s ++ [obj]) s).
Proof.
  apply frame_set_heap.
  - rewrite length_app. lia.
  - intros o Ho. by rewrite lookup_app_l.
Qed.

Lemma frame_set_closures n fn s fin :
  frame n s fin [] (set_closures (closures s ++ [fn]) s).
Proof.
  constructor; try done.
  - unfold_state. by rewrite app_nil_r.
  - intros e d _ H. by apply not_elem_of_nil in H.
  - unfold_state. by apply prefix_app_r.
Qed.

Lemma frame_set_document n d s fin : frame n s fin [] (set_document d s).
Proof.
  constructor; try done.
  - unfold_state. by rewrite app_nil_r.
  - intros e d' _ H. by apply not_elem_of_nil in H.
Qed.

Lemma stored_store o obj k p s o' k' :
  heap s !! o = Some obj →
  stored (store o obj k p s) o' k' =
    if decide (o' = o ∧ k' = k) then Some p else stored s o' k'.
Proof.
  intros Ho. unfold stored, store, record, set_heap; simpl.
  destruct (decide (o' = o ∧ k' = k)) as [[-> ->]|Hne].
  - rewrite list_lookup_insert_eq by (by eapply lookup_lt_Some). simpl.
    by rewrite lookup_insert_eq.
  - destruct (decide (o' = o)) as [->|Hoo].
    + rewrite list_lookup_insert_eq by (by eapply lookup_lt_Some). simpl.
      rewrite Ho. simpl. rewrite lookup_insert_ne by (intros ->; by apply Hne). done.
    + by rewrite list_lookup_insert_ne.
Qed.

Lemma frame_store n o obj k p s fin :
  heap s !! o = Some obj →
  frame n s fin [(length (effectsStack s), EvSet o k)] (store o obj k p s).
Proof.
  intros Ho. constructor; try done.
  - apply Forall_singleton. done.
  - intros e d He H. by apply list_elem_of_singleton in H.
  - unfold store, record, set_heap; simpl. by rewrite length_insert.
  - intros o' k' _ Hno. rewrite (stored_store _ _ _ _ _ _ _ Ho).
    destruct (decide (o' = o ∧ k' = k)) as [[-> ->]|Hne]; [|done].
    exfalso. eapply Hno. by apply list_elem_of_singleton.
Qed.

Lemma frame_track n o k s fin : frame n s fin (track_delta o k s) (track o k s).
Proof.
  unfold track_delta. destruct (currentEffect s) as [e|] eqn:Hcur.
  2:{ rewrite track_inactive by done. apply frame_refl. }
  destruct (track_other o k s) as (Hh & Hc & Hce & Hst & Hd).
  constructor.
  - by apply track_log.
  - done.
  - apply Forall_singleton. done.
  - intros x d _ H. by apply list_elem_of_singleton in H.
  - by rewrite Hc.
  - by rewrite Hh.
  - intros o' k' _ _. unfold stored. by rewrite Hh.
  - intros o' k' Hno. rewrite (subscribers_track _ _ _ _ _ _ Hcur).
    destruct (decide (o' = o ∧ k' = k)) as [[-> ->]|Hne]; [|done].
    exfalso. eapply Hno. by apply list_elem_of_singleton.
Qed.

Lemma frame_prop_get n o k s r s' fin :
  prop_get o k s = (r, s') → ∃ delta, frame n s fin delta s'.
Proof.
  unfold prop_get.
  destruct (heap s !! o) as [obj|];
    [|intros [= <- <-]; eexists; apply frame_refl].
  destruct (obj !! k) as [p|];
    [|intros [= <- <-]; eexists; apply frame_refl].
  destruct (p_slot p); intros [= <- <-]; eexists;
    [apply frame_refl | apply frame_track].
Qed.

Lemma frame_render n el c s r s' fin :
  render el c s = (r, s') → ∃ delta, frame n s fin delta s'.
Proof.
  unfold render.
  destruct (document (record (EvRender el c) s) !! el); intros [= <- <-].
  - eexists. eapply frame_trans with (fin1 := True);
      [by apply (frame_record _ (EvRender el c)) | done | apply frame_set_document].
  - eexists. by apply frame_record.
Qed.

Lemma frame_install n obj ro k s r s' fin :
  n ≤ ro → install obj ro k s = (r, s') → ∃ delta, frame n s fin delta s'.
Proof.
  intros Hn. unfold install, bind.
  destruct (prop_get obj k s) as [[v| |] s1] eqn:Hget;
    try (intros [= <- <-]; by eapply frame_prop_get).
  apply (frame_prop_get n _ _ _ _ _ True) in Hget as [d1 Hf1].
  destruct (heap s1 !! ro) as [o|] eqn:Hro;
    [|intros [= <- <-]; exists d1; by eapply frame_weaken].
  destruct (Object_defineProperty _ _ _); intros [= <- <-];
    [|exists d1; by eapply frame_weaken].
  eexists. eapply frame_trans; [exact Hf1 | done |].
  apply frame_set_heap.
  - by rewrite length_insert.
  - intros o' Ho'. rewrite list_lookup_insert_ne; [done | lia].
Qed.

Lemma frame_forEach {A B} n (f : A → M B) (l : list A) :
  (∀ x s r s', f x s = (r, s') → ∃ delta, frame n s True delta s') →
  ∀ s r s', forEach f l s = (r, s') → ∃ delta, frame n s True delta s'.
Proof.
  intros Hf. induction l as [|x l IH]; intros s r s'; simpl.
  - intros [= <- <-]. eexists. apply frame_refl.
  - unfold bind. destruct (f x s) as [[b| |] s1] eqn:Hfx;
      try (intros [= <- <-]; by eapply Hf).
    intros Hrest. apply Hf in Hfx as [d1 H1]. apply IH in Hrest as [d2 H2].
    eexists. by eapply frame_trans.
Qed.

Lemma frame_reactive obj s r s' fin :
  reactive obj s = (r, s') → ∃ delta, frame (length (heap s)) s fin delta s'.
Proof.
  unfold reactive.
  destruct (heap s !! obj) as [o|];
    [|intros [= <- <-]; eexists; apply frame_refl].
  unfold bind.
  destruct (forEach _ _ _) as [[b| |] s1] eqn:Hloop; intros [= <- <-];
    (apply (frame_forEach (length (heap s))) in Hloop as [d Hd];
     [|intros ????; by apply frame_install]);
    (eexists; eapply frame_trans;
     [apply frame_alloc with (fin := True) | done | by eapply frame_weaken]).
Qed.

(** ** Frames of the operations that call back *)

Lemma trigger_forEach call o k s :
  trigger call o k s = forEach (effect_call call) (subscribers s o k) s.
Proof.
  unfold trigger, subscribers.
  destruct (depsMap s !! o) as [deps|]; simpl; [|by rewrite lookup_empty].
  by destruct (deps !! k).
Qed.

Lemma frame_run n e s (fin3 fin : Prop) d3 s3 s'' :
  e ∉ effectsStack s →
  frame n (enter e (record (EvRun e) (record (EvCall e) s))) fin3 d3 s3 →
  log s'' = log s3 → closures s'' = closures s3 → heap s'' = heap s3 →
  depsMap s'' = depsMap s3 →
  (fin → effectsStack s'' = effectsStack s) →
  frame n s fin
    ((length (effectsStack s), EvCall e) :: (length (effectsStack s), EvRun e) :: d3) s''.
Proof.
  intros Hnin [L S D G C N H B] HL HC HH HD HS.
  unfold enter, record in L, D, G, C, N; simpl in L, D, G, C, N.
  constructor.
  - rewrite HL, L. by rewrite <- !app_assoc.
  - done.
  - repeat apply Forall_cons_2; simpl; try lia.
    eapply Forall_impl; [exact D|]. intros x. rewrite length_app. simpl. lia.
  - intros x d Hx Hin. apply elem_of_cons in Hin as [Hin|Hin]; [done|].
    apply elem_of_cons in Hin as [Hin|Hin].
    + inversion Hin; subst. done.
    + eapply G; [|exact Hin]. apply elem_of_app. by left.
  - by rewrite HC.
  - by rewrite HH.
  - intros o k Ho Hno. unfold stored. rewrite HH. apply H; [done|].
    intros d Hin. eapply Hno. by do 2 apply list_elem_of_further.
  - intros o k Hno. unfold subscribers. rewrite HD. apply B.
    intros d x Hin. eapply Hno. by do 2 apply list_elem_of_further.
Qed.

Section Frames.
Variable call : prog → M value.
Hypothesis call_frame : ∀ p s r s',
  call p s = (r, s') → ∃ delta, frame (length (heap s)) s (finished r) delta s'.

Lemma effect_call_frame e s r s' :
  effect_call call e s = (r, s') →
  ∃ delta, frame (length (heap s)) s (finished r) delta s' ∧
           call_trace (length (effectsStack s)) (effectsStack s) e delta.
Proof.
  unfold effect_call, call_trace.
  change (effectsStack (record (EvCall e) s)) with (effectsStack s).
  case_bool_decide as Hidx.
  - apply Array_indexOf_spec in Hidx.
    destruct (decide (e ∈ effectsStack s)) as [?|_]; [done|].
    destruct (call _ _) as [r3 s3] eqn:Hcall.
    apply call_frame in Hcall as [d3 F3].
    change (heap (enter e (record (EvRun e) (record (EvCall e) s))))
      with (heap s) in F3.
    assert (Hdeep : Forall (λ x : entry, length (effectsStack s) < x.1) d3).
    { eapply Forall_impl; [apply (fr_depth _ _ _ _ _ F3)|].
      intros x. unfold enter, record; simpl. rewrite length_app; simpl. lia. }
    assert (Hst : finished r3 → effectsStack (leave s3) = effectsStack s).
    { intros Hfin. unfold leave; simpl. rewrite (fr_stack _ _ _ _ _ F3 Hfin).
      unfold enter, record; simpl. apply Array_pop_push. }
    destruct r3 as [v|v|]; intros [= <- <-];
      (eexists; split; [eapply frame_run; try exact F3; done | by eexists]).
  - assert (e ∈ effectsStack s).
    { destruct (decide (e ∈ effectsStack s)) as [?|Hn]; [done|].
      by apply Array_indexOf_spec in Hn. }
    destruct (decide (e ∈ effectsStack s)) as [_|?]; [|done].
    intros [= <- <-]. eexists. split; [|done].
    apply frame_record. done.
Qed.

Lemma pass_frame l : ∀ s r s',
  forEach (effect_call call) l s = (r, s') →
  ∃ delta done,
    frame (length (heap s)) s (finished r) delta s' ∧
    done `prefix_of` l ∧
    pass_trace (length (effectsStack s)) (effectsStack s) done delta ∧
    (r = Normal tt → done = l).
Proof.
  induction l as [|e l IH]; intros s r s'; simpl.
  - intros [= <- <-]. exists [], []. split_and!; try done.
    + apply frame_refl.
    + constructor.
  - unfold bind. destruct (effect_call call e s) as [re s1] eqn:He.
    apply effect_call_frame in He as (de & Fe & Te).
    assert (Hone : pass_trace (length (effectsStack s)) (effectsStack s) [e] de).
    { rewrite <- (app_nil_r de). constructor; [done | constructor]. }
    destruct re as [v|v|].
    + intros Hrest. apply IH in Hrest as (dl & done & Fl & Hpre & Tl & Hall).
      simpl in Fe. rewrite (fr_stack _ _ _ _ _ Fe I) in Tl.
      exists (de ++ dl), (e :: done). split_and!.
      * eapply frame_trans; [exact Fe | done |].
        eapply frame_weaken; [exact Fl | apply (fr_length _ _ _ _ _ Fe) | done].
      * by apply prefix_cons.
      * by constructor.
      * intros Hr. by rewrite Hall.
    + intros [= <- <-]. exists de, [e]. split_and!; try done.
      apply prefix_cons, prefix_nil.
    + intros [= <- <-]. exists de, [e]. split_and!; try done.
      apply prefix_cons, prefix_nil.
Qed.

Lemma createEffect_frame fn s r s' :
  createEffect call fn s = (r, s') →
  ∃ delta, frame (length (heap s)) s (finished r) delta s'.
Proof.
  unfold createEffect, bind.
  destruct (effect_call call _ _) as [re s1] eqn:He.
  apply effect_call_frame in He as (de & Fe & _).
  assert (F : frame (length (heap s)) s (finished re) ([] ++ de) s1).
  { eapply frame_trans; [apply frame_set_closures with (fin := True) | done | exact Fe]. }
  destruct re; intros [= <- <-]; by eexists.
Qed.

Lemma trigger_frame o k s r s' :
  trigger call o k s = (r, s') →
  ∃ delta, frame (length (heap s)) s (finished r) delta s'.
Proof.
  rewrite trigger_forEach. intros H.
  apply pass_frame in H as (delta & done & F & _). by exists delta.
Qed.

Lemma prop_set_frame o k v s r s' :
  prop_set call o k v s = (r, s') →
  ∃ delta, frame (length (heap s)) s (finished r) delta s'.
Proof.
  unfold prop_set.
  destruct (heap s !! o) as [obj|] eqn:Ho;
    [|intros [= <- <-]; eexists; apply frame_refl].
  destruct (obj !! k) as [p|];
    [|intros [= <- <-]; eexists; by apply frame_store].
  destruct (p_slot p) as [old|old];
    [intros [= <- <-]; eexists; by apply frame_store|].
  destruct (strict_neq v old);
    [|intros [= <- <-]; eexists; apply frame_refl].
  intros H. apply trigger_frame in H as [d F].
  eexists. eapply frame_trans; [by apply frame_store with (fin := True) | done |].
  eapply frame_weaken; [exact F | | done].
  unfold store, record, set_heap; simpl. by rewrite length_insert.
Qed.

Lemma call_frame_weak p s r s' :
  call p s = (r, s') → ∀ n, n ≤ length (heap s) →
  ∃ delta, frame n s (finished r) delta s'.
Proof.
  intros H n Hn. apply call_frame in H as [d F]. exists d.
  by eapply frame_weaken.
Qed.

Lemma exec_step_frame p s r s' :
  exec_step call p s = (r, s') →
  ∃ delta, frame (length (heap s)) s (finished r) delta s'.
Proof.
  destruct p; simpl.
  - intros [= <- <-]. eexists. apply frame_refl.
  - intros [= <- <-]. eexists. apply frame_refl.
  - intros H. eapply call_frame_weak in H as [d F].
    + eexists. eapply frame_trans; [apply frame_alloc with (fin := True) | done | exact F].
    + unfold set_heap; simpl. rewrite length_app. lia.
  - unfold bind. destruct (prop_get o key s) as [[v| |] s1] eqn:H1;
      try (intros [= <- <-]; by eapply frame_prop_get).
    apply (frame_prop_get (length (heap s)) _ _ _ _ _ True) in H1 as [d1 F1].
    intros H. eapply call_frame_weak in H as [d F];
      [|apply (fr_length _ _ _ _ _ F1)].
    eexists. by eapply frame_trans.
  - unfold bind. destruct (prop_set call o key v s) as [[[]| |] s1] eqn:H1;
      try (intros [= <- <-]; apply prop_set_frame in H1 as [d1 F1]; exists d1;
           by eapply frame_weaken).
    apply prop_set_frame in H1 as [d1 F1].
    intros H. eapply call_frame_weak in H as [d F];
      [|apply (fr_length _ _ _ _ _ F1)].
    eexists. by eapply frame_trans.
  - unfold bind. destruct (reactive o s) as [[v| |] s1] eqn:H1;
      try (intros [= <- <-]; by eapply frame_reactive).
    apply (frame_reactive _ _ _ _ True) in H1 as [d1 F1].
    intros H. eapply call_frame_weak in H as [d F];
      [|apply (fr_length _ _ _ _ _ F1)].
    eexists. by eapply frame_trans.
  - unfold bind. destruct (createEffect call p1 s) as [[[]| |] s1] eqn:H1;
      try (intros [= <- <-]; apply createEffect_frame in H1 as [d1 F1]; exists d1;
           by eapply frame_weaken).
    apply createEffect_frame in H1 as [d1 F1].
    intros H. eapply call_frame_weak in H as [d F];
      [|apply (fr_length _ _ _ _ _ F1)].
    eexists. by eapply frame_trans.
  - unfold bind. destruct (render element content s) as [[[]| |] s1] eqn:H1;
      try (intros [= <- <-]; by eapply frame_render).
    apply (frame_render (length (heap s)) _ _ _ _ _ True) in H1 as [d1 F1].
    intros H. eapply call_frame_weak in H as [d F];
      [|apply (fr_length _ _ _ _ _ F1)].
    eexists. by eapply frame_trans.
  - destruct (call p s) as [[v|e|] s1] eqn:H1.
    + apply call_frame in H1 as [d1 F1].
      intros H. eapply call_frame_weak in H as [d F];
        [|apply (fr_length _ _ _ _ _ F1)].
      eexists. by eapply frame_trans.
    + apply call_frame in H1 as [d1 F1]. unfold bind.
      destruct (call (handler e) s1) as [[v|e'|] s2] eqn:H2.
      * eapply call_frame_weak in H2 as [d2 F2];
          [|apply (fr_length _ _ _ _ _ F1)].
        pose proof (frame_trans _ _ _ _ _ _ _ _ F1 I F2) as F12.
        intros H. eapply call_frame_weak in H as [d F];
          [|apply (fr_length _ _ _ _ _ F12)].
        eexists. by eapply frame_trans.
      * eapply call_frame_weak in H2 as [d2 F2];
          [|apply (fr_length _ _ _ _ _ F1)].
        intros [= <- <-]. eexists. by eapply frame_trans.
      * eapply call_frame_weak in H2 as [d2 F2];
          [|apply (fr_length _ _ _ _ _ F1)].
        intros [= <- <-]. eexists. by eapply frame_trans.
    + intros [= <- <-]. by eapply call_frame.
Qed.
End Frames.

(** ** The invocations of a pass, one by one *)

Lemma forEach_pass_run call l : ∀ s r s',
  forEach (effect_call call) l s = (r, s') → ∃ done, pass_run call l s r s' done.
Proof.
  induction l as [|e l IH]; intros s r s'; simpl.
  - intros [= <- <-]. exists []. constructor.
  - unfold bind. destruct (effect_call call e s) as [[v|v|] s1] eqn:He.
    + intros H. apply IH in H as [done H]. exists (e :: done). by econstructor.
    + intros [= <- <-]. exists [e]. by constructor.
    + intros [= <- <-]. exists [e]. by constructor.
Qed.

Lemma pass_run_shape call l s r s' done :
  pass_run call l s r s' done →
  done `prefix_of` l ∧
  (r = Normal tt → done = l) ∧
  (∀ v, r = Thrown v → ∃ pre e post, l = pre ++ e :: post ∧ done = pre ++ [e]) ∧
  (r = OutOfFuel → ∃ pre e post, l = pre ++ e :: post ∧ done = pre ++ [e]).
Proof.
  induction 1 as [s|e l s v s1 r s' done He _ (IH1 & IH2 & IH3 & IH4)
                 |e l s v s' He|e l s s' He].
  - split_and!; try done.
  - split_and!.
    + by apply prefix_cons.
    + intros Hr. by rewrite IH2.
    + intros x Hr. destruct (IH3 x Hr) as (pre & e' & post & -> & ->).
      by exists (e :: pre), e', post.
    + intros Hr. destruct (IH4 Hr) as (pre & e' & post & -> & ->).
      by exists (e :: pre), e', post.
  - split_and!; try done.
    + apply prefix_cons, prefix_nil.
    + intros x _. by exists [], e, l.
  - split_and!; try done.
    + apply prefix_cons, prefix_nil.
    + intros _. by exists [], e, l.
Qed.

Lemma pass_run_trace call l s r s' done :
  (∀ p t r' t', call p t = (r', t') →
     ∃ delta, frame (length (heap t)) t (finished r') delta t') →
  pass_run call l s r s' done →
  ∃ delta,
    log s' = log s ++ delta ∧
    pass_trace (length (effectsStack s)) (effectsStack s) done delta.
Proof.
  intros call_frame.
  induction 1 as [s|e l s v s1 r s' done He _ (dl & Hlog & T)
                 |e l s v s' He|e l s s' He].
  - exists []. split; [by rewrite app_nil_r | constructor].
  - apply (effect_call_frame _ call_frame) in He as (de & Fe & Te).
    rewrite (fr_stack _ _ _ _ _ Fe I) in T.
    exists (de ++ dl). split; [|by constructor].
    by rewrite Hlog, (fr_log _ _ _ _ _ Fe), app_assoc.
  - apply (effect_call_frame _ call_frame) in He as (de & Fe & Te).
    exists de. split; [apply (fr_log _ _ _ _ _ Fe)|].
    rewrite <- (app_nil_r de). constructor; [done | constructor].
  - apply (effect_call_frame _ call_frame) in He as (de & Fe & Te).
    exists de. split; [apply (fr_log _ _ _ _ _ Fe)|].
    rewrite <- (app_nil_r de). constructor; [done | constructor].
Qed.

Lemma exec_frame n : ∀ p s r s',
  exec n p s = (r, s') → ∃ delta, frame (length (heap s)) s (finished r) delta s'.
Proof.
  induction n as [|n IH]; intros p s r s'; simpl.
  - intros [= <- <-]. eexists. apply frame_refl.
  - by apply exec_step_frame.
Qed.

(** ** Preservation of well-formedness by the operations that call back *)

Section Preservation.
Variable call : prog → M value.
Hypothesis call_frame : ∀ p s r s',
  call p s = (r, s') → ∃ delta, frame (length (heap s)) s (finished r) delta s'.
Hypothesis call_wf : ∀ p s r s', wf s → call p s = (r, s') → wf s'.

Lemma effect_call_wf e s r s' :
  wf s → e < length (closures s) → effect_call call e s = (r, s') → wf s'.
Proof.
  intros Hwf Hlt. unfold effect_call.
  change (effectsStack (record (EvCall e) s)) with (effectsStack s).
  case_bool_decide as Hidx.
  - destruct (call _ _) as [r3 s3] eqn:Hcall.
    apply call_wf in Hcall.
    + destruct r3; intros [= <- <-]; [by apply wf_leave.. | done].
    + apply wf_enter; [by apply wf_record_call_run | | done].
      exists (length (effectsStack s)). unfold record; simpl.
      apply elem_of_snoc. by right.
  - intros [= <- <-]. apply wf_record; [done.. |].
    intros x [= <-]. apply (wf_stack_ran _ Hwf).
    destruct (decide (e ∈ effectsStack s)) as [?|Hn]; [done|].
    by apply Array_indexOf_spec in Hn.
Qed.

Lemma pass_wf l : ∀ s r s',
  wf s → (∀ e, e ∈ l → e < length (closures s)) →
  forEach (effect_call call) l s = (r, s') → wf s'.
Proof.
  induction l as [|e l IH]; intros s r s' Hwf Hl; simpl.
  - by intros [= <- <-].
  - unfold bind. destruct (effect_call call e s) as [re s1] eqn:He.
    pose proof He as Hf. apply (effect_call_frame _ call_frame) in Hf as (de & Fe & _).
    apply effect_call_wf in He; [|done | apply Hl; left].
    destruct re; try (by intros [= <- <-]).
    apply IH; [done|]. intros x Hx.
    pose proof (prefix_length _ _ (fr_closures _ _ _ _ _ Fe)).
    specialize (Hl x (list_elem_of_further _ _ _ Hx)). lia.
Qed.

Lemma createEffect_wf fn s r s' :
  wf s → createEffect call fn s = (r, s') → wf s'.
Proof.
  intros Hwf. unfold createEffect, bind.
  destruct (effect_call call _ _) as [re s1] eqn:He.
  apply effect_call_wf in He.
  - destruct re; by intros [= <- <-].
  - by apply wf_set_closures.
  - unfold set_closures; simpl. rewrite length_app; simpl. lia.
Qed.

Lemma trigger_wf o k s r s' : wf s → trigger call o k s = (r, s') → wf s'.
Proof.
  intros Hwf. rewrite trigger_forEach. apply pass_wf; [done|].
  intros e. apply (wf_subs_valid _ Hwf).
Qed.

Lemma wf_store o obj k p s : wf s → wf (store o obj k p s).
Proof. intros Hwf. unfold store. apply wf_record; [by apply wf_set_heap | done..]. Qed.

Lemma prop_set_wf o k v s r s' : wf s → prop_set call o k v s = (r, s') → wf s'.
Proof.
  intros Hwf. unfold prop_set.
  destruct (heap s !! o) as [obj|]; [|by intros [= <- <-]].
  destruct (obj !! k) as [p|]; [|intros [= <- <-]; by apply wf_store].
  destruct (p_slot p) as [old|old]; [intros [= <- <-]; by apply wf_store|].
  destruct (strict_neq v old); [|by intros [= <- <-]].
  apply trigger_wf. by apply wf_store.
Qed.

Lemma exec_step_wf p s r s' : wf s → exec_step call p s = (r, s') → wf s'.
Proof.
  intros Hwf. destruct p; simpl.
  - by intros [= <- <-].
  - by intros [= <- <-].
  - apply call_wf. by apply wf_set_heap.
  - unfold bind. destruct (prop_get o key s) as [[v| |] s1] eqn:H1;
      try (intros [= <- <-]; by eapply wf_prop_get).
    apply call_wf. by eapply wf_prop_get.
  - unfold bind. destruct (prop_set call o key v s) as [[[]| |] s1] eqn:H1;
      try (intros [= <- <-]; by eapply prop_set_wf).
    apply call_wf. by eapply prop_set_wf.
  - unfold bind. destruct (reactive o s) as [[v| |] s1] eqn:H1;
      try (intros [= <- <-]; by eapply wf_reactive).
    apply call_wf. by eapply wf_reactive.
  - unfold bind. destruct (createEffect call p1 s) as [[[]| |] s1] eqn:H1;
      try (intros [= <- <-]; by eapply createEffect_wf).
    apply call_wf. by eapply createEffect_wf.
  - unfold bind. destruct (render element content s) as [[[]| |] s1] eqn:H1;
      try (intros [= <- <-]; by eapply wf_render).
    apply call_wf. by eapply wf_render.
  - destruct (call p s) as [[v|e|] s1] eqn:H1.
    + apply call_wf. by eapply call_wf.
    + unfold bind. destruct (call (handler e) s1) as [[v|e'|] s2] eqn:H2.
      * apply call_wf. eapply call_wf; [|exact H2]. by eapply call_wf.
      * intros [= <- <-]. eapply call_wf; [|exact H2]. by eapply call_wf.
      * intros [= <- <-]. eapply call_wf; [|exact H2]. by eapply call_wf.
    + intros [= <- <-]. by eapply call_wf.
Qed.
End Preservation.

(** Every state the interpreter stops in is well formed, whether the
    computation returned, threw or ran out of fuel half-way. *)
Lemma exec_wf n : ∀ p s r s', wf s → exec n p s = (r, s') → wf s'.
Proof.
  induction n as [|n IH]; intros p s r s' Hwf; simpl.
  - by intros [= <- <-].
  - apply exec_step_wf; [apply exec_frame | done | done].
Qed.

(** In particular every state a script reaches from a freshly loaded module
    is well formed. *)
Lemma script_wf doc n p : wf (exec n p (init doc)).2.
Proof.
  destruct (exec n p (init doc)) as [r s] eqn:H. simpl.
  eapply exec_wf; [apply wf_init | exact H].
Qed.

(** ** Reading a trace *)

Lemma occ_not_elem {A} `{EqDecision A} (x : A) l : x ∉ l → occ x l = 0.
Proof.
  intros Hx. unfold occ. destruct (filter (λ y, y = x) l) as [|z l'] eqn:Hf; [done|].
  assert (Hz : z ∈ filter (λ y, y = x) l) by (rewrite Hf; left).
  apply list_elem_of_filter in Hz as [-> Hz]. done.
Qed.

Lemma occ_NoDup {A} `{EqDecision A} (x : A) l : NoDup l → x ∈ l → occ x l = 1.
Proof.
  unfold occ. induction 1 as [|y l Hy Hnd IH]; intros Hx.
  - by apply not_elem_of_nil in Hx.
  - rewrite filter_cons. apply elem_of_cons in Hx as [->|Hx].
    + rewrite decide_True by done. simpl. f_equal. by apply occ_not_elem.
    + rewrite decide_False by (intros ->; done). by apply IH.
Qed.

Lemma calls_at_app d l1 l2 : calls_at d (l1 ++ l2) = calls_at d l1 ++ calls_at d l2.
Proof. apply omap_app. Qed.

Lemma runs_at_app d l1 l2 : runs_at d (l1 ++ l2) = runs_at d l1 ++ runs_at d l2.
Proof. apply omap_app. Qed.

Lemma calls_at_cons d d' ev l :
  calls_at d ((d', ev) :: l) =
    match ev with
    | EvCall e => if decide (d' = d) then e :: calls_at d l else calls_at d l
    | _ => calls_at d l
    end.
Proof. unfold calls_at. simpl. destruct ev; try done. by destruct (decide (d' = d)). Qed.

Lemma runs_at_cons d d' ev l :
  runs_at d ((d', ev) :: l) =
    match ev with
    | EvRun e => if decide (d' = d) then e :: runs_at d l else runs_at d l
    | _ => runs_at d l
    end.
Proof. unfold runs_at. simpl. destruct ev; try done. by destruct (decide (d' = d)). Qed.

Lemma deeper_silent d nested :
  Forall (λ x : entry, d < x.1) nested →
  calls_at d nested = [] ∧ runs_at d nested = [].
Proof.
  induction 1 as [|[d' ev] l Hd _ [IH1 IH2]]; [done|]. simpl in Hd.
  rewrite calls_at_cons, runs_at_cons, IH1, IH2.
  destruct ev; try done; rewrite decide_False by lia; done.
Qed.

Lemma call_trace_at d st e delta :
  call_trace d st e delta →
  calls_at d delta = [e] ∧
  runs_at d delta = (if decide (e ∈ st) then [] else [e]) ∧
  ∀ x, x ∈ delta → x = (d, EvCall e) ∨ x = (d, EvRun e) ∨ d < x.1.
Proof.
  unfold call_trace. destruct (decide (e ∈ st)).
  - intros ->. rewrite calls_at_cons, runs_at_cons, decide_True by done.
    split_and!; try done. intros x Hx. apply list_elem_of_singleton in Hx. by left.
  - intros (nested & -> & Hdeep). pose proof (deeper_silent _ _ Hdeep) as [H1 H2].
    rewrite !calls_at_cons, !runs_at_cons, !decide_True by done.
    rewrite H1, H2. split_and!; try done.
    intros x Hx. apply elem_of_cons in Hx as [->|Hx]; [by left|].
    apply elem_of_cons in Hx as [->|Hx]; [right; by left|].
    right; right. by eapply Forall_forall in Hdeep.
Qed.

Lemma pass_trace_at d st l delta :
  pass_trace d st l delta →
  calls_at d delta = l ∧
  runs_at d delta = filter (λ e, e ∉ st) l ∧
  ∀ x, x ∈ delta → (∃ e, e ∈ l ∧ (x = (d, EvCall e) ∨ x = (d, EvRun e))) ∨ d < x.1.
Proof.
  induction 1 as [|e l de dl Hc _ (IH1 & IH2 & IH3)].
  - split_and!; try done. intros x Hx. by apply not_elem_of_nil in Hx.
  - apply call_trace_at in Hc as (C1 & C2 & C3).
    rewrite calls_at_app, runs_at_app, C1, C2, IH1, IH2, filter_cons.
    split_and!; try done.
    + destruct (decide (e ∈ st)); [by rewrite decide_False by tauto|].
      by rewrite decide_True.
    + intros x Hx. apply elem_of_app in Hx as [Hx|Hx].
      * destruct (C3 x Hx) as [->|[->|?]]; [left|left|by right];
          exists e; (split; [left | tauto]).
      * destruct (IH3 x Hx) as [(e' & He' & Hx')|?]; [left|by right].
        exists e'. split; [by right | done].
Qed.

(** What an assignment to a property that [reactive] intercepts does when
    the value differs: it stores the value and runs the notification pass
    over the subscribers registered at that moment. *)
Lemma prop_set_changed call o k obj p old v s :
  heap s !! o = Some obj → obj !! k = Some p → p_slot p = AccessorSlot old →
  strict_eq v old = false →
  prop_set call o k v s =
    forEach (effect_call call) (subscribers s o k)
      (store o obj k (mkProperty (AccessorSlot v) (p_enumerable p) (p_configurable p)) s).
Proof.
  intros Ho Hk Hp Hne. unfold prop_set. rewrite Ho, Hk, Hp.
  unfold strict_neq. rewrite Hne. simpl. by rewrite trigger_forEach.
Qed.

Lemma prop_set_pass n o k obj p old v s r s' :
  heap s !! o = Some obj → obj !! k = Some p → p_slot p = AccessorSlot old →
  strict_eq v old = false →
  prop_set (exec n) o k v s = (r, s') →
  ∃ delta done,
    log s' = log s ++ (length (effectsStack s), EvSet o k) :: delta ∧
    done `prefix_of` subscribers s o k ∧
    pass_trace (length (effectsStack s)) (effectsStack s) done delta ∧
    (r = Normal tt → done = subscribers s o k).
Proof.
  intros Ho Hk Hp Hne. rewrite (prop_set_changed _ _ _ _ _ _ _ _ Ho Hk Hp Hne).
  intros H. apply (pass_frame _ (exec_frame n)) in H as (delta & done & F & Hpre & T & Hall).
  exists delta, done. split_and!; try done.
  rewrite (fr_log _ _ _ _ _ F). unfold store, record; simpl. by rewrite <- app_assoc.
Qed.

(** The trace of an assignment, whatever kind of property it hits: at the
    depth of the assignment itself there is only the store and the
    invocations of the subscribers registered for that very coordinate;
    everything else happened inside an effect run. *)
Lemma prop_set_trace n o k v s r s' :
  prop_set (exec n) o k v s = (r, s') →
  ∃ delta,
    log s' = log s ++ delta ∧
    ∀ x, x ∈ delta →
      x = (length (effectsStack s), EvSet o k) ∨
      (∃ e, e ∈ subscribers s o k ∧
            (x = (length (effectsStack s), EvCall e) ∨
             x = (length (effectsStack s), EvRun e))) ∨
      length (effectsStack s) < x.1.
Proof.
  unfold prop_set.
  assert (Hnil : ∀ t : state, log t = log t ++ [] ∧ ∀ x : entry, x ∈ [] →
            x = (length (effectsStack t), EvSet o k) ∨
            (∃ e, e ∈ subscribers t o k ∧
                  (x = (length (effectsStack t), EvCall e) ∨
                   x = (length (effectsStack t), EvRun e))) ∨
            length (effectsStack t) < x.1).
  { intros t. split; [by rewrite app_nil_r|]. intros x Hx. by apply not_elem_of_nil in Hx. }
  assert (Hone : ∀ obj p,
            log (store o obj k p s) = log s ++ [(length (effectsStack s), EvSet o k)] ∧
            ∀ x : entry, x ∈ [(length (effectsStack s), EvSet o k)] →
            x = (length (effectsStack s), EvSet o k) ∨
            (∃ e, e ∈ subscribers s o k ∧
                  (x = (length (effectsStack s), EvCall e) ∨
                   x = (length (effectsStack s), EvRun e))) ∨
            length (effectsStack s) < x.1).
  { intros obj p. split; [done|]. intros x Hx. apply list_elem_of_singleton in Hx. by left. }
  destruct (heap s !! o) as [obj|] eqn:Ho; [|intros [= <- <-]; by eexists].
  destruct (obj !! k) as [p|] eqn:Hk; [|intros [= <- <-]; by eexists].
  destruct (p_slot p) as [old|old] eqn:Hp; [intros [= <- <-]; by eexists|].
  destruct (strict_neq v old) eqn:Hne; [|intros [= <- <-]; by eexists].
  rewrite trigger_forEach.
  change (subscribers (store _ _ _ _ s) o k) with (subscribers s o k).
  intros H. apply (pass_frame _ (exec_frame n)) in H as (delta & done & F & Hpre & T & _).
  exists ((length (effectsStack s), EvSet o k) :: delta). split.
  - rewrite (fr_log _ _ _ _ _ F). unfold store, record; simpl. by rewrite <- app_assoc.
  - intros x Hx. apply elem_of_cons in Hx as [->|Hx]; [by left|]. right.
    apply pass_trace_at in T as (_ & _ & T).
    destruct (T x Hx) as [(e & He & Hx')|?]; [left|by right].
    exists e. split; [|done]. destruct Hpre as [rest ->]. apply elem_of_app. by left.
Qed.

(** * The claims *)

Lemma counter_state_wf : wf counter_state.
Proof. apply script_wf. Qed.

(** ** C4: change filtering in the set accessor *)

(** C4. For a property that [reactive] intercepts, assigning a value strictly
    equal to the stored one changes nothing at all (the state, trace
    included, is the one before: the stored value is not updated and no
    effect is invoked); assigning a strictly different value first stores
    it and then runs [trigger] for the same coordinate. *)
Theorem C4_set_accessor_change_filter call s O P obj p old v :
  heap s !! O = Some obj → obj !! P = Some p → p_slot p = AccessorSlot old →
  (strict_eq v old = true → prop_set call O P v s = (Normal tt, s)) ∧
  (strict_eq v old = false →
   let s1 := store O obj P
               (mkProperty (AccessorSlot v) (p_enumerable p) (p_configurable p)) s in
   stored s1 O P = Some (mkProperty (AccessorSlot v) (p_enumerable p) (p_configurable p)) ∧
   prop_set call O P v s = trigger call O P s1).
Proof.
  intros Ho Hk Hp. split; intros Heq.
  - unfold prop_set. rewrite Ho, Hk, Hp. unfold strict_neq. by rewrite Heq.
  - split.
    + rewrite (stored_store _ _ _ _ _ _ _ Ho). by rewrite decide_True.
    + unfold prop_set. rewrite Ho, Hk, Hp. unfold strict_neq. by rewrite Heq.
Qed.

Lemma C4_set_accessor_change_filter_witness :
  prop_set (exec 5) 1 "count" (VNumber 0) counter_state = (Normal tt, counter_state) ∧
  ∃ s1, stored s1 1 "count" = Some (mkProperty (AccessorSlot (VNumber 1)) false false) ∧
        prop_set (exec 5) 1 "count" (VNumber 1) counter_state
          = trigger (exec 5) 1 "count" s1.
Proof.
  assert (Ho : heap counter_state !! 1 =
               Some {[ "count"%string := mkProperty (AccessorSlot (VNumber 0)) false false ]}).
  { vm_compute. reflexivity. }
  assert (Hk : ({[ "count"%string := mkProperty (AccessorSlot (VNumber 0)) false false ]}
                  : gmap string property) !! "count"%string
               = Some (mkProperty (AccessorSlot (VNumber 0)) false false)).
  { vm_compute. reflexivity. }
  split.
  - apply (C4_set_accessor_change_filter (exec 5) counter_state 1 "count" _ _
             (VNumber 0) (VNumber 0) Ho Hk eq_refl). reflexivity.
  - eexists.
    apply (C4_set_accessor_change_filter (exec 5) counter_state 1 "count" _ _
             (VNumber 0) (VNumber 1) Ho Hk eq_refl). reflexivity.
Defined.

(** ** C2: the re-entrancy guard *)

(** C2. When the wrapper of an effect is invoked while that wrapper is on
    the active-call stack, its computation is not invoked: whatever the
    computation is, the call returns [undefined] at once and leaves the
    state as it was (the trace only notes the invocation).  In particular,
    while [E] is running, an assignment to any property, one it has read
    included, never re-enters [E]'s computation, at no depth; nor does
    anything else a computation does while [E] is running. *)
Theorem C2_reentrancy_guard n E s :
  E ∈ effectsStack s →
  (∀ call, effect_call call E s = (Normal VUndefined, record (EvCall E) s)) ∧
  (∀ O P v r s', prop_set (exec n) O P v s = (r, s') →
     ∃ delta, log s' = log s ++ delta ∧ ∀ d, (d, EvRun E) ∉ delta) ∧
  (∀ p r s', exec n p s = (r, s') →
     ∃ delta, log s' = log s ++ delta ∧ ∀ d, (d, EvRun E) ∉ delta).
Proof.
  intros HE. split_and!.
  - intros call. unfold effect_call.
    change (effectsStack (record (EvCall E) s)) with (effectsStack s).
    rewrite bool_decide_eq_false_2; [done|].
    rewrite Array_indexOf_spec. tauto.
  - intros O P v r s' H. apply (prop_set_frame _ (exec_frame n)) in H as [delta F].
    exists delta. split; [apply (fr_log _ _ _ _ _ F)|].
    intros d. by apply (fr_guard _ _ _ _ _ F).
  - intros p r s' H. apply exec_frame in H as [delta F].
    exists delta. split; [apply (fr_log _ _ _ _ _ F)|].
    intros d. by apply (fr_guard _ _ _ _ _ F).
Qed.

Lemma C2_reentrancy_guard_witness :
  effect_call (exec 7) 0 counter_state_running
    = (Normal VUndefined, record (EvCall 0) counter_state_running) ∧
  ∃ delta,
    log (prop_set (exec 7) 1 "count" (VNumber 5) counter_state_running).2
      = log counter_state_running ++ delta ∧
    ∀ d, (d, EvRun 0) ∉ delta.
Proof.
  assert (HE : 0 ∈ effectsStack counter_state_running).
  { vm_compute. left. }
  split.
  - apply (C2_reentrancy_guard 7 0 counter_state_running HE).
  - destruct (prop_set (exec 7) 1 "count" (VNumber 5) counter_state_running)
      as [r s'] eqn:H.
    exact (proj1 (proj2 (C2_reentrancy_guard 7 0 counter_state_running HE)) _ _ _ _ _ H).
Defined.

(** ** C3: the finally block *)

(** C3. Whenever the computation of an effect has been entered and comes
    back, normally or by a throw, the wrapper hands the same outcome on
    after its [finally] block: the computation came back with the effect on
    top of the stack, the pop removes it, the stack is the one of the
    caller again and [currentEffect] is its top, or [null] when it is
    empty.  For the first run, made by [createEffect], a throw of the
    computation is the outcome of [createEffect] itself. *)
Theorem C3_finally_restores_context n :
  (∀ e s r1 s1,
     e ∉ effectsStack s →
     exec n (fn_of s e) (enter e (record (EvRun e) (record (EvCall e) s))) = (r1, s1) →
     finished r1 →
     effect_call (exec n) e s = (r1, leave s1) ∧
     effectsStack s1 = effectsStack s ++ [e] ∧
     effectsStack (leave s1) = effectsStack s ∧
     currentEffect (leave s1) = last (effectsStack s)) ∧
  (∀ fn s v s1,
     wf s →
     let e := length (closures s) in
     let s0 := set_closures (closures s ++ [fn]) s in
     exec n fn (enter e (record (EvRun e) (record (EvCall e) s0))) = (Thrown v, s1) →
     createEffect (exec n) fn s = (Thrown v, leave s1) ∧
     effectsStack (leave s1) = effectsStack s ∧
     currentEffect (leave s1) = last (effectsStack s)).
Proof.
  assert (Hrun : ∀ e s r1 s1,
     e ∉ effectsStack s →
     exec n (fn_of s e) (enter e (record (EvRun e) (record (EvCall e) s))) = (r1, s1) →
     finished r1 →
     effect_call (exec n) e s = (r1, leave s1) ∧
     effectsStack s1 = effectsStack s ++ [e] ∧
     effectsStack (leave s1) = effectsStack s ∧
     currentEffect (leave s1) = last (effectsStack s)).
  { intros e s r1 s1 He Hrun Hfin.
    pose proof Hrun as Hf. apply exec_frame in Hf as [delta F].
    pose proof (fr_stack _ _ _ _ _ F Hfin) as Hst.
    change (effectsStack (enter e (record (EvRun e) (record (EvCall e) s))))
      with (effectsStack s ++ [e]) in Hst.
    assert (Hpop : effectsStack (leave s1) = effectsStack s).
    { unfold leave; simpl. rewrite Hst. apply Array_pop_push. }
    split_and!; try done.
    - unfold effect_call.
      change (effectsStack (record (EvCall e) s)) with (effectsStack s).
      rewrite bool_decide_eq_true_2 by (by apply Array_indexOf_spec).
      change (fn_of (record (EvCall e) s) e) with (fn_of s e).
      rewrite Hrun. by destruct r1.
    - unfold leave at 1; simpl. rewrite Hst. by rewrite Array_pop_push. }
  split; [exact Hrun|].
  intros fn s v s1 Hwf e s0 Hthrow.
  assert (He : e ∉ effectsStack s0).
  { intros Hin. apply (wf_stack_valid _ Hwf) in Hin. unfold e in Hin. lia. }
  assert (Hfn : fn_of s0 e = fn).
  { unfold fn_of, s0, e, set_closures; simpl.
    rewrite lookup_app_r by done. by rewrite Nat.sub_diag. }
  rewrite <- Hfn in Hthrow at 1.
  destruct (Hrun e s0 (Thrown v) s1 He Hthrow I) as (Hcall & _ & Hst & Hcur).
  split_and!; try done.
  unfold createEffect, bind. fold e. fold s0. by rewrite Hcall.
Qed.

Lemma C3_finally_restores_context_witness :
  (∃ s1, effect_call (exec 10) 0 counter_state = (Normal VUndefined, leave s1) ∧
         effectsStack s1 = effectsStack counter_state ++ [0] ∧
         effectsStack (leave s1) = effectsStack counter_state ∧
         currentEffect (leave s1) = last (effectsStack counter_state)) ∧
  (∃ s1, createEffect (exec 10) (Throw (VString "boom")) (init page)
           = (Thrown (VString "boom"), leave s1) ∧
         effectsStack (leave s1) = effectsStack (init page) ∧
         currentEffect (leave s1) = last (effectsStack (init page))).
Proof.
  split.
  - destruct (exec 10 (fn_of counter_state 0)
                (enter 0 (record (EvRun 0) (record (EvCall 0) counter_state))))
      as [r1 s1] eqn:H.
    assert (Hr : r1 = Normal VUndefined).
    { apply (f_equal fst) in H. vm_compute in H. congruence. }
    subst r1. exists s1.
    apply (proj1 (C3_finally_restores_context 10) 0 counter_state _ s1); [|exact H|exact I].
    vm_compute. apply not_elem_of_nil.
  - eexists.
    apply (proj2 (C3_finally_restores_context 10) (Throw (VString "boom")) (init page)
             (VString "boom") _ (wf_init page)).
    reflexivity.
Defined.

(** ** C7: trigger *)

Lemma fragile_state_wf : wf fragile_state.
Proof. apply script_wf. Qed.

(** C7, as stated, fails: both effects are in the subscriber set of the
    coordinate, effect 0 throws, and the pass ends there: effect 1, although
    in the snapshot, is not invoked. *)
Lemma C7_counterexample :
  prop_set (exec 10) 1 "p" (VNumber 1) fragile_state
    = trigger (exec 10) 1 "p" fragile_state_stored ∧
  subscribers fragile_state_stored 1 "p" = [0; 1] ∧
  ∃ s', trigger (exec 10) 1 "p" fragile_state_stored = (Thrown (VString "boom"), s') ∧
        calls_at 0 (drop (length (log fragile_state_stored)) (log s')) = [0] ∧
        (EvCall 1 ∉ (drop (length (log fragile_state_stored)) (log s')).*2).
Proof.
  split; [vm_compute; reflexivity|].
  split; [vm_compute; reflexivity|].
  eexists. split; [vm_compute; reflexivity|].
  split; [vm_compute; reflexivity|].
  intros Hin. apply list_elem_of_In in Hin. vm_compute in Hin.
  repeat (destruct Hin as [Hin|Hin]; [discriminate Hin|]). destruct Hin.
Qed.

(** C7, amended.  [trigger] changes nothing and invokes nothing when the
    target has no registry entry or the key has no subscriber set.
    Otherwise it works on the subscriber set as it was when [trigger] was
    entered, whatever subscriptions the invoked effects add in the
    meantime: it invokes the effects of that snapshot in the set's order,
    with no argument, each at most once, going on after an invocation that
    returns normally and stopping at the first one that does not.  The
    invocations the pass makes are therefore exactly the snapshot when the
    pass returns normally; when an invoked effect throws they are the
    effects of the snapshot up to and including that one, the later ones
    are not invoked, and the throw is the outcome of [trigger]. *)
Theorem C7_trigger_snapshot_pass n s o k r s' :
  wf s →
  trigger (exec n) o k s = (r, s') →
  ((depsMap s !! o = None ∨ ∃ deps, depsMap s !! o = Some deps ∧ deps !! k = None) →
   r = Normal tt ∧ s' = s) ∧
  ∃ delta,
    log s' = log s ++ delta ∧
    NoDup (subscribers s o k) ∧
    calls_at (length (effectsStack s)) delta `prefix_of` subscribers s o k ∧
    (r = Normal tt → calls_at (length (effectsStack s)) delta = subscribers s o k) ∧
    pass_run (exec n) (subscribers s o k) s r s'
      (calls_at (length (effectsStack s)) delta) ∧
    (∀ v, r = Thrown v →
       ∃ pre e post,
         subscribers s o k = pre ++ e :: post ∧
         calls_at (length (effectsStack s)) delta = pre ++ [e]).
Proof.
  intros Hwf H. split.
  - intros Hno. unfold trigger in H.
    destruct Hno as [Hno|(deps & Hd & Hno)].
    + rewrite Hno in H. by inversion H.
    + rewrite Hd, Hno in H. by inversion H.
  - rewrite trigger_forEach in H.
    apply forEach_pass_run in H as [done Hrun].
    destruct (pass_run_trace _ _ _ _ _ _ (exec_frame n) Hrun) as (delta & Hlog & T).
    apply pass_trace_at in T as (Hcalls & _).
    destruct (pass_run_shape _ _ _ _ _ _ Hrun) as (Hpre & Hall & Hthrow & _).
    exists delta. rewrite Hcalls. split_and!; try done.
    apply (wf_nodup _ Hwf).
Qed.

Lemma C7_trigger_snapshot_pass_witness :
  (trigger (exec 10) 1 "count" (init page) = (Normal tt, init page)) ∧
  (∃ delta,
     log (trigger (exec 10) 1 "count" counter_state).2 = log counter_state ++ delta ∧
     calls_at 0 delta = subscribers counter_state 1 "count") ∧
  (∃ delta pre e post,
     log (trigger (exec 10) 1 "p" fragile_state_stored).2
       = log fragile_state_stored ++ delta ∧
     subscribers fragile_state_stored 1 "p" = pre ++ e :: post ∧
     calls_at 0 delta = pre ++ [e]).
Proof.
  split_and!.
  - destruct (trigger (exec 10) 1 "count" (init page)) as [r s'] eqn:H.
    destruct (C7_trigger_snapshot_pass 10 (init page) 1 "count" r s' (wf_init page) H)
      as [Hnone _].
    destruct Hnone as [-> ->]; [|done]. left. reflexivity.
  - destruct (trigger (exec 10) 1 "count" counter_state) as [r s'] eqn:H.
    assert (Hr : r = Normal tt).
    { apply (f_equal fst) in H. vm_compute in H. congruence. }
    destruct (C7_trigger_snapshot_pass 10 counter_state 1 "count" r s' counter_state_wf H)
      as [_ (delta & Hlog & _ & _ & Hall & _)].
    exists delta. split; [exact Hlog | exact (Hall Hr)].
  - destruct (trigger (exec 10) 1 "p" fragile_state_stored) as [r s'] eqn:H.
    assert (Hr : r = Thrown (VString "boom")).
    { apply (f_equal fst) in H. vm_compute in H. congruence. }
    assert (Hwf : wf fragile_state_stored).
    { apply wf_store, fragile_state_wf. }
    destruct (C7_trigger_snapshot_pass 10 fragile_state_stored 1 "p" r s' Hwf H)
      as [_ (delta & Hlog & _ & _ & _ & _ & Hthrow)].
    destruct (Hthrow _ Hr) as (pre & e & post & Hsub & Hcalls).
    by exists delta, pre, e, post.
Defined.

(** ** C1: dependency capture *)

(** A read of an intercepted property while [E] is the current effect is
    what the trace entry [EvTrack] stands for: it subscribes [E] to the
    coordinate. *)
Lemma prop_get_tracked s E O P obj p old :
  currentEffect s = Some E →
  heap s !! O = Some obj → obj !! P = Some p → p_slot p = AccessorSlot old →
  ∃ s1, prop_get O P s = (Normal old, s1) ∧
        log s1 = log s ++ [(length (effectsStack s), EvTrack O P E)] ∧
        E ∈ subscribers s1 O P.
Proof.
  intros Hcur Ho Hk Hp. unfold prop_get. rewrite Ho, Hk, Hp.
  eexists. split_and!; [done | by apply track_log |].
  rewrite (subscribers_track _ _ _ _ _ _ Hcur), decide_True by done.
  apply Set_add_elem. by left.
Qed.

(** The registry never drops a subscription: once [e] is subscribed to a
    coordinate it stays subscribed, whatever runs afterwards. *)
Lemma subscription_persists n p s r s' o k e :
  wf s → exec n p s = (r, s') → e ∈ subscribers s o k → e ∈ subscribers s' o k.
Proof.
  intros Hwf H He.
  pose proof (exec_wf _ _ _ _ _ Hwf H) as Hwf'.
  apply exec_frame in H as [delta F].
  apply (wf_subs _ Hwf) in He as [d Hd].
  apply (wf_subs _ Hwf'). exists d. rewrite (fr_log _ _ _ _ _ F).
  apply elem_of_app. by left.
Qed.

(** C1, as stated, fails: effect 1 has read [p] during its run and the
    assignment [p = 1] stores a strictly different value, but effect 0,
    which is notified first, throws; the pass ends there and effect 1 is
    not re-run. *)
Lemma C1_counterexample :
  wf fragile_state ∧
  (1, EvTrack 1 "p" 1) ∈ log fragile_state ∧
  stored fragile_state 1 "p" = Some (mkProperty (AccessorSlot (VNumber 0)) false false) ∧
  strict_eq (VNumber 1) (VNumber 0) = false ∧
  effectsStack fragile_state = [] ∧
  ∃ s', prop_set (exec 10) 1 "p" (VNumber 1) fragile_state
          = (Thrown (VString "boom"), s') ∧
        stored s' 1 "p" = Some (mkProperty (AccessorSlot (VNumber 1)) false false) ∧
        runs_at 0 (drop (length (log fragile_state)) (log s')) = [0] ∧
        occ 1 (runs_at 0 (drop (length (log fragile_state)) (log s'))) = 0 ∧
        (EvRun 1 ∉ (drop (length (log fragile_state)) (log s')).*2).
Proof.
  split; [apply fragile_state_wf|].
  split; [vm_compute; repeat constructor|].
  split; [vm_compute; reflexivity|].
  split; [reflexivity|].
  split; [vm_compute; reflexivity|].
  eexists. split; [vm_compute; reflexivity|].
  split; [vm_compute; reflexivity|].
  split; [vm_compute; reflexivity|].
  split; [vm_compute; reflexivity|].
  intros Hin. apply list_elem_of_In in Hin. vm_compute in Hin.
  repeat (destruct Hin as [Hin|Hin]; [discriminate Hin|]). destruct Hin.
Qed.

(** C1, amended.  Let [E] have read [O.P] while it was the current effect
    (the registry then holds the subscription, and never drops it).  A later
    assignment to [O.P] of a value strictly different from the stored one,
    made while [E] is not on the active-call stack and whose notification
    pass returns normally (no effect notified by it throws), runs the
    computation of [E] exactly once in that pass.  Runs of [E] caused by
    assignments nested in the pass are counted with those assignments. *)
Theorem C1_dependency_capture n s E O P obj p old v s' :
  wf s →
  (∃ d, (d, EvTrack O P E) ∈ log s) →
  heap s !! O = Some obj → obj !! P = Some p → p_slot p = AccessorSlot old →
  strict_eq v old = false →
  E ∉ effectsStack s →
  prop_set (exec n) O P v s = (Normal tt, s') →
  ∃ delta,
    log s' = log s ++ delta ∧
    occ E (runs_at (length (effectsStack s)) delta) = 1.
Proof.
  intros Hwf Htr Ho Hk Hp Hne HE H.
  apply (prop_set_pass _ _ _ _ _ _ _ _ _ _ Ho Hk Hp Hne) in H
    as (delta & done & Hlog & _ & T & Hall).
  rewrite (Hall eq_refl) in T.
  apply pass_trace_at in T as (_ & Hruns & _).
  eexists. split; [exact Hlog|].
  rewrite runs_at_cons, Hruns.
  apply occ_NoDup.
  - apply NoDup_filter, (wf_nodup _ Hwf).
  - apply list_elem_of_filter. split; [done|]. by apply (wf_subs _ Hwf).
Qed.

Lemma C1_dependency_capture_witness :
  ∃ delta,
    log (prop_set (exec 10) 1 "count" (VNumber 1) counter_state).2
      = log counter_state ++ delta ∧
    occ 0 (runs_at (length (effectsStack counter_state)) delta) = 1.
Proof.
  destruct (prop_set (exec 10) 1 "count" (VNumber 1) counter_state) as [r s'] eqn:H.
  assert (Hr : r = Normal tt).
  { apply (f_equal fst) in H. vm_compute in H. congruence. }
  subst r.
  apply (C1_dependency_capture 10 counter_state 0 1 "count"
           {[ "count"%string := mkProperty (AccessorSlot (VNumber 0)) false false ]}
           (mkProperty (AccessorSlot (VNumber 0)) false false)
           (VNumber 0) (VNumber 1) s' counter_state_wf).
  - exists 1. vm_compute. repeat constructor.
  - vm_compute. reflexivity.
  - vm_compute. reflexivity.
  - reflexivity.
  - reflexivity.
  - vm_compute. apply not_elem_of_nil.
  - exact H.
Defined.

(** ** C8: isolation across keys *)

Lemma elem_of_calls_at d e delta : e ∈ calls_at d delta ↔ (d, EvCall e) ∈ delta.
Proof.
  unfold calls_at. rewrite list_elem_of_omap. split.
  - intros ([d' ev] & Hx & Hf). destruct ev; try done.
    destruct (decide (d' = d)) as [->|]; [|done]. by inversion Hf; subst.
  - intros H. exists (d, EvCall e). split; [done|]. by rewrite decide_True.
Qed.

Lemma bridge_state_wf : wf bridge_state.
Proof. apply script_wf. Qed.

(** C8, as stated, fails: effect 0 never reads [q], before or during the
    assignment, yet the assignment [q = 1] re-runs it, because effect 1,
    which that assignment notifies, assigns [p]. *)
Lemma C8_counterexample :
  wf bridge_state ∧
  (1, EvTrack 1 "p" 0) ∈ log bridge_state ∧
  ∃ s', prop_set (exec 10) 1 "q" (VNumber 1) bridge_state = (Normal tt, s') ∧
        (EvTrack 1 "q" 0 ∉ events s') ∧
        (1, EvRun 0) ∈ drop (length (log bridge_state)) (log s').
Proof.
  split; [apply bridge_state_wf|].
  split; [vm_compute; repeat constructor|].
  eexists. split; [vm_compute; reflexivity|].
  split.
  - intros Hin. apply list_elem_of_In in Hin. vm_compute in Hin.
    repeat (destruct Hin as [Hin|Hin]; [discriminate Hin|]). destruct Hin.
  - vm_compute. repeat constructor.
Qed.

(** C8, amended.  Let [E] have read, of the properties of [O], only [P].
    The notification pass of an assignment to another property [Q] of [O]
    does not invoke [E]: during that assignment [E] is re-run, if at all,
    only inside the run of another effect, by a nested assignment. *)
Theorem C8_isolation_across_keys n s E O P Q v r s' :
  wf s →
  P ≠ Q →
  (∀ d k, (d, EvTrack O k E) ∈ log s → k = P) →
  prop_set (exec n) O Q v s = (r, s') →
  ∃ delta,
    log s' = log s ++ delta ∧
    (E ∉ calls_at (length (effectsStack s)) delta) ∧
    (E ∉ runs_at (length (effectsStack s)) delta) ∧
    ∀ d, (d, EvRun E) ∈ delta → length (effectsStack s) < d.
Proof.
  intros Hwf HPQ Honly H.
  assert (HE : E ∉ subscribers s O Q).
  { intros Hin. apply (wf_subs _ Hwf) in Hin as [d Hd]. apply Honly in Hd. by subst. }
  apply prop_set_trace in H as (delta & Hlog & Hshape).
  assert (Hrun : ∀ d, (d, EvRun E) ∈ delta → length (effectsStack s) < d).
  { intros d Hd. destruct (Hshape _ Hd) as [Hx|[(e & He & [Hx|Hx])|Hx]]; try done.
    inversion Hx; subst. done. }
  exists delta. split_and!; try done.
  - rewrite elem_of_calls_at. intros Hd.
    destruct (Hshape _ Hd) as [Hx|[(e & He & [Hx|Hx])|Hx]]; try done.
    + inversion Hx; subst. done.
    + simpl in Hx. lia.
  - unfold runs_at. rewrite list_elem_of_omap. intros ([d' ev] & Hx & Hf).
    destruct ev; try done. destruct (decide (d' = _)) as [->|]; [|done].
    inversion Hf; subst. apply Hrun in Hx. lia.
Qed.

Lemma C8_isolation_across_keys_witness :
  ∃ delta,
    log (prop_set (exec 10) 1 "q" (VNumber 1) bridge_state).2 = log bridge_state ++ delta ∧
    (0 ∉ calls_at (length (effectsStack bridge_state)) delta) ∧
    (0 ∉ runs_at (length (effectsStack bridge_state)) delta) ∧
    ∀ d, (d, EvRun 0) ∈ delta → length (effectsStack bridge_state) < d.
Proof.
  destruct (prop_set (exec 10) 1 "q" (VNumber 1) bridge_state) as [r s'] eqn:H.
  apply (C8_isolation_across_keys 10 bridge_state 0 1 "p" "q" (VNumber 1) r s'
           bridge_state_wf); [done | | exact H].
  intros d k Hin. remember (log bridge_state) as l eqn:Hl. vm_compute in Hl. subst l.
  apply list_elem_of_In in Hin. simpl in Hin.
  repeat (destruct Hin as [Hin|Hin]; [try discriminate Hin; by inversion Hin|]).
  destruct Hin.
Defined.

(** ** C5: no spurious tracking *)

Lemma prop_get_inactive o k s : currentEffect s = None → (prop_get o k s).2 = s.
Proof.
  intros Hcur. unfold prop_get.
  destruct (heap s !! o) as [obj|]; [|done].
  destruct (obj !! k) as [p|]; [|done].
  destruct (p_slot p); [done|]. simpl. by apply track_inactive.
Qed.

(** C5. While no effect is active, [track] is the identity on the state and
    so is a read of [O.P]: the registry is left as it was.  An assignment to
    [O.P] that follows invokes, in its notification pass, only effects that
    are subscribed to [O.P] because they read it while they were the current
    effect, and that have been run; and every wrapper invoked during the
    assignment, at any depth, is one whose computation has been run as the
    current effect by then. *)
Theorem C5_no_spurious_tracking n s O P v r s' :
  wf s →
  currentEffect s = None →
  prop_set (exec n) O P v (prop_get O P s).2 = (r, s') →
  track O P s = s ∧
  (prop_get O P s).2 = s ∧
  ∃ delta,
    log s' = log s ++ delta ∧
    (∀ e, e ∈ calls_at (length (effectsStack s)) delta →
          e ∈ subscribers s O P ∧ (∃ d, (d, EvTrack O P e) ∈ log s) ∧ ran s e) ∧
    (∀ d e, (d, EvCall e) ∈ delta → ran s' e).
Proof.
  intros Hwf Hcur H.
  rewrite (prop_get_inactive _ _ _ Hcur) in *.
  split; [by apply track_inactive|]. split; [done|].
  assert (Hwf' : wf s').
  { eapply prop_set_wf; [apply exec_frame | apply exec_wf | exact Hwf | exact H]. }
  apply prop_set_trace in H as (delta & Hlog & Hshape).
  exists delta. split_and!; try done.
  - intros e He. apply elem_of_calls_at in He.
    assert (Hsub : e ∈ subscribers s O P).
    { destruct (Hshape _ He) as [Hx|[(e' & He' & [Hx|Hx])|Hx]]; try done.
      - inversion Hx; subst. done.
      - simpl in Hx. lia. }
    split; [done|]. pose proof Hsub as Hs. apply (wf_subs _ Hwf) in Hs as [d Hd].
    split; [by exists d|]. by eapply (wf_track_ran _ Hwf).
  - intros d e Hin. apply (wf_call_ran _ Hwf' e d). rewrite Hlog.
    apply elem_of_app. by right.
Qed.

Lemma C5_no_spurious_tracking_witness :
  track 1 "count" counter_state = counter_state ∧
  (prop_get 1 "count" counter_state).2 = counter_state ∧
  ∃ delta,
    log (prop_set (exec 10) 1 "count" (VNumber 1)
           (prop_get 1 "count" counter_state).2).2 = log counter_state ++ delta ∧
    (∀ e, e ∈ calls_at (length (effectsStack counter_state)) delta →
          e ∈ subscribers counter_state 1 "count" ∧
          (∃ d, (d, EvTrack 1 "count" e) ∈ log counter_state) ∧ ran counter_state e) ∧
    (∀ d e, (d, EvCall e) ∈ delta →
            ran (prop_set (exec 10) 1 "count" (VNumber 1)
                   (prop_get 1 "count" counter_state).2).2 e).
Proof.
  destruct (prop_set (exec 10) 1 "count" (VNumber 1) (prop_get 1 "count" counter_state).2)
    as [r s'] eqn:H.
  apply (C5_no_spurious_tracking 10 counter_state 1 "count" (VNumber 1) r s'
           counter_state_wf); [|exact H].
  vm_compute. reflexivity.
Defined.

(** ** C9: what an assignment leaves alone *)

(** C9, as stated, fails: the assignment [q = 1] changes the value stored
    for the other property [p] of the same object, because effect 1, which
    the assignment notifies, assigns [p] in its run. *)
Lemma C9_counterexample :
  stored bridge_state 1 "p" = Some (mkProperty (AccessorSlot (VNumber 0)) false false) ∧
  ∃ s', prop_set (exec 10) 1 "q" (VNumber 1) bridge_state = (Normal tt, s') ∧
        stored s' 1 "p" = Some (mkProperty (AccessorSlot (VNumber 1)) false false).
Proof.
  split; [vm_compute; reflexivity|].
  eexists. split; vm_compute; reflexivity.
Qed.

(** What an assignment invokes at its own depth: a prefix of the
    subscribers of the coordinate it stores into, as they were before. *)
Lemma prop_set_calls n o k v s r s' delta :
  prop_set (exec n) o k v s = (r, s') →
  log s' = log s ++ delta →
  calls_at (length (effectsStack s)) delta `prefix_of` subscribers s o k.
Proof.
  intros H Hlog.
  assert (Hnone : ∀ t : state, log t = log s ++ delta →
            (log t = log s ∨ log t = log s ++ [(length (effectsStack s), EvSet o k)]) →
            calls_at (length (effectsStack s)) delta `prefix_of` subscribers s o k).
  { intros t Ht [Hl|Hl]; rewrite Hl in Ht.
    - rewrite <- (app_nil_r (log s)) in Ht at 1. apply app_inv_head in Ht as <-.
      apply prefix_nil.
    - apply app_inv_head in Ht as <-. rewrite calls_at_cons. apply prefix_nil. }
  unfold prop_set in H.
  destruct (heap s !! o) as [obj|] eqn:Ho;
    [|inversion H; subst; apply (Hnone s'); [done | by left]].
  destruct (obj !! k) as [p|] eqn:Hk;
    [|inversion H; subst; apply (Hnone (store o obj k (data_property v) s));
      [done | by right]].
  destruct (p_slot p) as [old|old] eqn:Hp;
    [inversion H; subst; eapply Hnone; [exact Hlog | by right]|].
  destruct (strict_neq v old) eqn:Hne;
    [|inversion H; subst; apply (Hnone s'); [done | by left]].
  rewrite trigger_forEach in H.
  change (subscribers (store _ _ _ _ s) o k) with (subscribers s o k) in H.
  apply (pass_frame _ (exec_frame n)) in H as (delta' & done & F & Hpre & T & _).
  pose proof (fr_log _ _ _ _ _ F) as Hl. unfold store, record in Hl; simpl in Hl.
  rewrite Hlog, <- app_assoc in Hl. apply app_inv_head in Hl as ->.
  change ([(length (effectsStack s), EvSet o k)] ++ delta')
    with ((length (effectsStack s), EvSet o k) :: delta').
  rewrite calls_at_cons.
  change (effectsStack (store o obj k _ s)) with (effectsStack s) in T.
  apply pass_trace_at in T as (-> & _). done.
Qed.

(** C9, amended.  Of its own, an assignment to [O.P] stores into [O.P] only
    and notifies the subscribers of [(O, P)] only: at the depth of the
    assignment the trace holds nothing but the store into [O.P] and the
    invocations and runs of effects subscribed to [(O, P)], and the effects
    invoked there are a prefix of the subscribers of [(O, P)].  For another
    property [Q] of [O]: every store into [O.Q] and every subscription to
    [(O, Q)] made during the assignment is made inside the run of an
    effect; if no run stores into [O.Q] its stored value is the one before,
    and if no run reads [O.Q] its subscriber set is the one before. *)
Theorem C9_assignment_frame n s O P Q v r s' :
  P ≠ Q →
  prop_set (exec n) O P v s = (r, s') →
  ∃ delta,
    log s' = log s ++ delta ∧
    (∀ d, (d, EvSet O Q) ∈ delta → length (effectsStack s) < d) ∧
    (∀ d e, (d, EvTrack O Q e) ∈ delta → length (effectsStack s) < d) ∧
    ((∀ d, (d, EvSet O Q) ∉ delta) → stored s' O Q = stored s O Q) ∧
    ((∀ d e, (d, EvTrack O Q e) ∉ delta) → subscribers s' O Q = subscribers s O Q) ∧
    (∀ x, x ∈ delta → x.1 = length (effectsStack s) →
          x.2 = EvSet O P ∨
          ∃ e, e ∈ subscribers s O P ∧ (x.2 = EvCall e ∨ x.2 = EvRun e)) ∧
    calls_at (length (effectsStack s)) delta `prefix_of` subscribers s O P.
Proof.
  intros HPQ H.
  pose proof H as Hcalls.
  pose proof H as Hf. apply (prop_set_frame _ (exec_frame n)) in Hf as [delta F].
  pose proof (prop_set_calls _ _ _ _ _ _ _ _ Hcalls (fr_log _ _ _ _ _ F)) as Hpre.
  apply prop_set_trace in H as (delta' & Hlog & Hshape).
  assert (delta' = delta) as ->.
  { rewrite (fr_log _ _ _ _ _ F) in Hlog. by apply app_inv_head in Hlog. }
  exists delta. split_and!; try done.
  - intros d Hd. destruct (Hshape _ Hd) as [Hx|[(e & He & [Hx|Hx])|Hx]]; try done.
    inversion Hx; subst. done.
  - intros d e Hd. destruct (Hshape _ Hd) as [Hx|[(e' & He & [Hx|Hx])|Hx]]; done.
  - intros Hno. destruct (heap s !! O) as [obj|] eqn:Ho.
    + apply lookup_lt_Some in Ho. by apply (fr_heap _ _ _ _ _ F).
    + unfold prop_set in Hcalls. rewrite Ho in Hcalls. by inversion Hcalls; subst.
  - by apply (fr_subs _ _ _ _ _ F).
  - intros x Hx Hd. destruct (Hshape _ Hx) as [Hs|[(e & He & [Hs|Hs])|Hlt]].
    + left. by rewrite Hs.
    + right. exists e. split; [done | left; by rewrite Hs].
    + right. exists e. split; [done | right; by rewrite Hs].
    + lia.
Qed.

Lemma C9_assignment_frame_witness :
  let s' := (prop_set (exec 10) 1 "p" (VNumber 3) bridge_state).2 in
  stored s' 1 "q" = stored bridge_state 1 "q" ∧
  subscribers s' 1 "q" = subscribers bridge_state 1 "q" ∧
  calls_at 0 (drop (length (log bridge_state)) (log s'))
    `prefix_of` subscribers bridge_state 1 "p".
Proof.
  intros s'.
  destruct (C9_assignment_frame 10 bridge_state 1 "p" "q" (VNumber 3)
              (prop_set (exec 10) 1 "p" (VNumber 3) bridge_state).1 s')
    as (delta & Hlog & _ & _ & Hstored & Hsubs & _ & Hcalls).
  - done.
  - apply surjective_pairing.
  - assert (Hd : delta = drop (length (log bridge_state)) (log s')).
    { by rewrite Hlog, drop_app_length. }
    rewrite Hd in Hcalls.
    assert (Hc : drop (length (log bridge_state)) (log s')
                 = [(0, EvSet 1 "p"); (0, EvCall 0); (0, EvRun 0); (1, EvTrack 1 "p" 0)]).
    { vm_compute. reflexivity. }
    rewrite Hc in Hd. subst delta. split_and!; [| |exact Hcalls].
    + apply Hstored. intros d Hin. apply list_elem_of_In in Hin. simpl in Hin.
      repeat (destruct Hin as [Hin|Hin]; [discriminate Hin|]). destruct Hin.
    + apply Hsubs. intros d e Hin. apply list_elem_of_In in Hin. simpl in Hin.
      repeat (destruct Hin as [Hin|Hin]; [discriminate Hin|]). destruct Hin.
Defined.

(** ** reactive *)

Lemma elem_of_Object_keys (o : object) k :
  k ∈ Object_keys o ↔ ∃ p, o !! k = Some p ∧ p_enumerable p = true.
Proof.
  unfold Object_keys. rewrite list_elem_of_fmap. split.
  - intros ([k' p] & -> & Hin). apply list_elem_of_filter in Hin as [Hen Hin].
    apply elem_of_map_to_list in Hin. by exists p.
  - intros (p & Hk & Hen). exists (k, p). split; [done|].
    apply list_elem_of_filter. split; [done|]. by apply elem_of_map_to_list.
Qed.

Lemma NoDup_Object_keys (o : object) : NoDup (Object_keys o).
Proof.
  unfold Object_keys. eapply sublist_NoDup; [apply (NoDup_fst_map_to_list o)|].
  apply fmap_sublist, sublist_filter.
Qed.

Lemma defineProperty_fresh (ro : object) k v :
  ro !! k = None →
  Object_defineProperty ro k
    {| d_slot := AccessorSlot v; d_enumerable := None; d_configurable := None |}
  = Some (<[k := accessor_property v]> ro).
Proof. intros H. unfold Object_defineProperty. by rewrite H. Qed.

Lemma installed_lookup o keys : ∀ acc k,
  installed o keys acc !! k =
    if decide (k ∈ keys) then Some (accessor_property (value_at o k)) else acc !! k.
Proof.
  unfold installed. induction keys as [|k0 keys IH] using rev_ind; intros acc k.
  - simpl. destruct (decide (k ∈ [])) as [H|_]; [by apply not_elem_of_nil in H | done].
  - rewrite foldl_snoc. destruct (decide (k = k0)) as [->|Hne].
    + rewrite lookup_insert_eq. rewrite decide_True; [done|].
      apply elem_of_app. right. left.
    + rewrite lookup_insert_ne by done. rewrite IH.
      destruct (decide (k ∈ keys)).
      * rewrite decide_True; [done|]. apply elem_of_app. by left.
      * rewrite decide_False; [done|]. rewrite elem_of_snoc. tauto.
Qed.

(** The rounds of [keys.forEach] in [reactive]: they never fail, they write
    to the object under construction only, and apart from it they touch the
    registry alone, and only when a key of [obj] is itself an enumerable
    accessor. *)
Lemma install_loop obj rl (o : object) keys : ∀ s (acc : object),
  obj ≠ rl →
  heap s !! obj = Some o →
  heap s !! rl = Some acc →
  NoDup keys →
  (∀ k, k ∈ keys → acc !! k = None) →
  ∃ s', forEach (install obj rl) keys s = (Normal tt, s') ∧
        heap s' = <[rl := installed o keys acc]> (heap s) ∧
        closures s' = closures s ∧ currentEffect s' = currentEffect s ∧
        effectsStack s' = effectsStack s ∧ document s' = document s ∧
        ((∀ k p, k ∈ keys → o !! k = Some p → ∃ v, p_slot p = DataSlot v) →
         depsMap s' = depsMap s ∧ log s' = log s).
Proof.
  induction keys as [|k keys IH]; intros s acc Hne Ho Hrl Hnd Hfresh.
  - exists s. simpl. split_and!; try done. by rewrite list_insert_id.
  - apply NoDup_cons in Hnd as [Hk Hnd].
    assert (Hget : ∃ s1, prop_get obj k s = (Normal (value_at o k), s1) ∧
              heap s1 = heap s ∧ closures s1 = closures s ∧
              currentEffect s1 = currentEffect s ∧ effectsStack s1 = effectsStack s ∧
              document s1 = document s ∧
              ((∀ p, o !! k = Some p → ∃ v, p_slot p = DataSlot v) →
               depsMap s1 = depsMap s ∧ log s1 = log s)).
    { unfold prop_get, value_at, slot_value. rewrite Ho.
      destruct (o !! k) as [p|] eqn:Hok; [|by exists s].
      destruct (p_slot p) as [v|v] eqn:Hp; [by exists s|].
      exists (track obj k s). destruct (track_other obj k s) as (?&?&?&?&?).
      split_and!; try done. intros Hdata. destruct (Hdata p eq_refl) as [v' Hv'].
      congruence. }
    destruct Hget as (s1 & Hget & Hh1 & Hc1 & Hce1 & Hst1 & Hd1 & Hdata1).
    set (acc1 := <[k := accessor_property (value_at o k)]> acc).
    set (s2 := set_heap (<[rl := acc1]> (heap s1)) s1).
    assert (Hstep : install obj rl k s = (Normal tt, s2)).
    { unfold install, bind. rewrite Hget, Hh1, Hrl.
      rewrite defineProperty_fresh by (apply Hfresh; left). by rewrite <- Hh1. }
    destruct (IH s2 acc1) as (s' & Hloop & Hh & Hc & Hce & Hst & Hd & Hdata); try done.
    + unfold s2; simpl. rewrite Hh1. by rewrite list_lookup_insert_ne.
    + unfold s2; simpl. rewrite Hh1. apply list_lookup_insert_eq.
      by eapply lookup_lt_Some.
    + intros k' Hk'. unfold acc1. rewrite lookup_insert_ne by (intros ->; done).
      apply Hfresh. by right.
    + exists s'. simpl. unfold bind. rewrite Hstep.
      split_and!; try done.
      * rewrite Hh. unfold s2; simpl. rewrite Hh1. by rewrite list_insert_insert_eq.
      * by rewrite Hc.
      * by rewrite Hce.
      * by rewrite Hst.
      * by rewrite Hd.
      * intros Hall. destruct Hdata as [-> ->].
        { intros k' p Hk' Hp. eapply Hall; [by right | done]. }
        apply Hdata1. intros p Hp. eapply Hall; [left | done].
Qed.

(** [reactive] always returns, with a fresh object whose properties are the
    accessors for the own enumerable keys of [obj]. *)
Lemma reactive_spec s obj (o : object) :
  heap s !! obj = Some o →
  ∃ s' (ro : object),
    reactive obj s = (Normal (length (heap s)), s') ∧
    heap s' = heap s ++ [ro] ∧
    (∀ k, ro !! k = if decide (k ∈ Object_keys o)
                    then Some (accessor_property (value_at o k)) else None) ∧
    closures s' = closures s ∧ currentEffect s' = currentEffect s ∧
    effectsStack s' = effectsStack s ∧ document s' = document s ∧
    (plain o → depsMap s' = depsMap s ∧ log s' = log s).
Proof.
  intros Ho. unfold reactive. rewrite Ho.
  pose proof (lookup_lt_Some _ _ _ Ho) as Hlt.
  destruct (install_loop obj (length (heap s)) o (Object_keys o)
              (set_heap (heap s ++ [∅]) s) ∅)
    as (s' & Hloop & Hh & Hc & Hce & Hst & Hd & Hdata).
  - lia.
  - simpl. by rewrite lookup_app_l.
  - simpl. rewrite lookup_app_r by done. by rewrite Nat.sub_diag.
  - apply NoDup_Object_keys.
  - intros k _. apply lookup_empty.
  - exists s', (installed o (Object_keys o) ∅). unfold bind. rewrite Hloop.
    split_and!; try done.
    + rewrite Hh. simpl.
      rewrite insert_app_r_alt by done. by rewrite Nat.sub_diag.
    + intros k. rewrite installed_lookup. by rewrite lookup_empty.
    + intros Hplain. apply Hdata. intros k p _ Hp. by apply (Hplain k p).
Qed.

Lemma plain_object_literal props : plain (object_literal props).
Proof.
  unfold object_literal.
  induction props as [|[k v] props IH] using rev_ind; intros k' p.
  - simpl. by rewrite lookup_empty.
  - rewrite foldl_snoc. simpl. destruct (decide (k = k')) as [->|Hne].
    + rewrite lookup_insert_eq. intros [= <-]. split; [done | by exists v].
    + rewrite lookup_insert_ne by done. apply IH.
Qed.

Lemma Object_keys_plain (o : object) k : plain o → k ∈ Object_keys o ↔ is_Some (o !! k).
Proof.
  intros Hplain. rewrite elem_of_Object_keys. split.
  - intros (p & Hp & _). by exists p.
  - intros [p Hp]. exists p. split; [done|]. by apply (Hplain k p).
Qed.

(** ** C6: the observed-object proxy *)

(** C6. For a plain object [obj], [reactive(obj)] returns a new object, at a
    location that was not in use, so distinct from [obj].  Its properties
    are accessors for exactly the own keys of [obj], each holding the value
    [obj] has under that key: an object-valued property holds the very same
    reference.  Nothing else changes: every object that existed, [obj] and
    the objects its properties refer to included, is as before, and the new
    object is the only one allocated.  A key that [obj] did not have is not
    intercepted on the result: assigning it there creates a data property
    without notifying anyone, and reading it back returns the value without
    subscribing anyone, even inside an effect run. *)
Theorem C6_reactive_proxy s obj (o : object) :
  heap s !! obj = Some o →
  plain o →
  ∃ ro : object,
    let r := length (heap s) in
    let s' := set_heap (heap s ++ [ro]) s in
    reactive obj s = (Normal r, s') ∧
    r ≠ obj ∧
    (∀ k, ro !! k = (λ p, accessor_property (slot_value p)) <$> o !! k) ∧
    dom ro = dom o ∧
    (∀ l (o' : object), heap s !! l = Some o' → heap s' !! l = Some o') ∧
    length (heap s') = S (length (heap s)) ∧
    (∀ call k v, o !! k = None →
       let s'' := store r ro k (data_property v) s' in
       prop_set call r k v s' = (Normal tt, s'') ∧
       prop_get r k s'' = (Normal v, s'')).
Proof.
  intros Ho Hplain.
  destruct (reactive_spec s obj o Ho)
    as (s' & ro & Hr & Hh & Hro & Hc & Hce & Hst & Hd & Hdata).
  destruct (Hdata Hplain) as [Hdeps Hlog].
  assert (Hs' : s' = set_heap (heap s ++ [ro]) s).
  { destruct s', s; unfold set_heap; simpl in *. by subst. }
  assert (Hlook : ∀ k, ro !! k = (λ p, accessor_property (slot_value p)) <$> o !! k).
  { intros k. rewrite Hro. destruct (decide (k ∈ Object_keys o)) as [Hin|Hnin].
    - apply Object_keys_plain in Hin as [p Hp]; [|done].
      unfold value_at. by rewrite Hp.
    - destruct (o !! k) as [p|] eqn:Hp; [|done].
      exfalso. apply Hnin. apply Object_keys_plain; [done | by exists p]. }
  assert (Hrl : (heap s ++ [ro]) !! length (heap s) = Some ro).
  { rewrite lookup_app_r by done. by rewrite Nat.sub_diag. }
  exists ro. cbv zeta. rewrite <- Hs'. split_and!; try done.
  - apply lookup_lt_Some in Ho. lia.
  - apply set_eq. intros k. rewrite !elem_of_dom, Hlook.
    destruct (o !! k); simpl; split; intros [x Hx]; by eauto.
  - intros l o' Hl. rewrite Hh. by rewrite lookup_app_l by (by eapply lookup_lt_Some).
  - rewrite Hh, length_app. simpl. lia.
  - intros call k v Hk.
    assert (Hrk : ro !! k = None) by (by rewrite Hlook, Hk).
    split.
    + unfold prop_set. rewrite Hh, Hrl, Hrk. done.
    + unfold prop_get, store, record, set_heap; simpl. rewrite Hh.
      rewrite list_lookup_insert_eq by (rewrite length_app; simpl; lia).
      by rewrite lookup_insert_eq.
Qed.

Lemma C6_reactive_proxy_witness :
  ∃ ro : object,
    let r := length (heap plain_state) in
    let s' := set_heap (heap plain_state ++ [ro]) plain_state in
    reactive 1 plain_state = (Normal r, s') ∧
    r ≠ 1 ∧
    (∀ k, ro !! k = (λ p, accessor_property (slot_value p)) <$>
                      object_literal [("count"%string, VNumber 0);
                                      ("inner"%string, VObject 0)] !! k) ∧
    dom ro = dom (object_literal [("count"%string, VNumber 0);
                                  ("inner"%string, VObject 0)]) ∧
    (∀ l (o' : object), heap plain_state !! l = Some o' → heap s' !! l = Some o') ∧
    length (heap s') = S (length (heap plain_state)) ∧
    (∀ call k v,
       object_literal [("count"%string, VNumber 0); ("inner"%string, VObject 0)] !! k = None →
       let s'' := store r ro k (data_property v) s' in
       prop_set call r k v s' = (Normal tt, s'') ∧
       prop_get r k s'' = (Normal v, s'')).
Proof.
  apply (C6_reactive_proxy plain_state 1
           (object_literal [("count"%string, VNumber 0); ("inner"%string, VObject 0)])).
  - reflexivity.
  - apply plain_object_literal.
Defined.

(** ** C10: the installed accessors are not enumerable *)



(** ** The scenario of the specification, run *)

(** [state.count = 1] re-renders once; the second [state.count = 1] does not
    render again. *)
Example counter_app_runs :
  let s := (exec 20 (counter_app (λ st,
              SetProp st "count" (VNumber 1)
             (SetProp st "count" (VNumber 1) (Ret VUndefined)))) (init page)).2 in
  document counter_state !! "#app"%string = Some "0"%string ∧
  document s !! "#app"%string = Some "1"%string ∧
  events s = [EvCall 0; EvRun 0; EvTrack 1 "count" 0; EvRender "#app" "0";
              EvSet 1 "count";
              EvCall 0; EvRun 0; EvTrack 1 "count" 0; EvRender "#app" "1"].
Proof. vm_compute. split_and!; reflexivity. Qed.

(** An effect that is running is invoked by the pass of an assignment to a
    property it has read, and skipped: the pass returns normally and the
    effect is not re-run. *)
Example guard_skips_active_effect :
  0 ∈ subscribers counter_state_running 1 "count" ∧
  ∃ s', prop_set (exec 7) 1 "count" (VNumber 5) counter_state_running = (Normal tt, s') ∧
        calls_at 1 (drop (length (log counter_state_running)) (log s')) = [0] ∧
        runs_at 1 (drop (length (log counter_state_running)) (log s')) = [].
Proof.
  split; [vm_compute; repeat constructor|].
  eexists. split; [vm_compute; reflexivity|]. split; vm_compute; reflexivity.
Qed.

(** * Further properties of the engine *)

Lemma pair_state_wf : wf pair_state.
Proof. apply script_wf. Qed.

(** ** track: set semantics of the registry *)

(** X1. [track] treats the subscribers of a coordinate as a set kept in
    insertion order.  With [e] the current effect: when [e] is already
    subscribed to [(O, P)] the registry is left exactly as it is; when it is
    not, [e] is appended after the subscribers already there; in both cases
    no other coordinate changes, and tracking the same coordinate a second
    time changes nothing more. *)
Theorem X1_track_set_semantics s O P e :
  currentEffect s = Some e →
  (e ∈ subscribers s O P → depsMap (track O P s) = depsMap s) ∧
  (e ∉ subscribers s O P → subscribers (track O P s) O P = subscribers s O P ++ [e]) ∧
  (∀ o k, ¬ (o = O ∧ k = P) → subscribers (track O P s) o k = subscribers s o k) ∧
  depsMap (track O P (track O P s)) = depsMap (track O P s).
Proof.
  intros Hcur.
  assert (Hidem : ∀ t, currentEffect t = Some e → e ∈ subscribers t O P →
                       depsMap (track O P t) = depsMap t).
  { intros t Ht Hin. unfold track. rewrite Ht. simpl.
    unfold subscribers in Hin.
    destruct (depsMap t !! O) as [deps|] eqn:Hd; simpl in *;
      [|rewrite lookup_empty in Hin; by apply not_elem_of_nil in Hin].
    destruct (deps !! P) as [dep|] eqn:Hp; simpl in *;
      [|by apply not_elem_of_nil in Hin].
    unfold Set_add. rewrite decide_True by done.
    rewrite (insert_id deps) by done. by rewrite insert_id. }
  split_and!.
  - by apply Hidem.
  - intros Hnin. rewrite (subscribers_track _ _ _ _ _ _ Hcur), decide_True by done.
    unfold Set_add. by rewrite decide_False.
  - intros o k Hne. rewrite (subscribers_track _ _ _ _ _ _ Hcur).
    by rewrite decide_False.
  - apply Hidem.
    + destruct (track_other O P s) as (_ & _ & -> & _). done.
    + rewrite (subscribers_track _ _ _ _ _ _ Hcur), decide_True by done.
      apply Set_add_elem. by left.
Qed.

Lemma X1_track_set_semantics_witness :
  depsMap (track 1 "count" counter_state_running) = depsMap counter_state_running ∧
  subscribers (track 1 "other" counter_state_running) 1 "other" = [0] ∧
  subscribers (track 1 "other" counter_state_running) 1 "count"
    = subscribers counter_state_running 1 "count".
Proof.
  destruct (X1_track_set_semantics counter_state_running 1 "count" 0 eq_refl)
    as (Hsame & _ & _ & _).
  destruct (X1_track_set_semantics counter_state_running 1 "other" 0 eq_refl)
    as (_ & Hnew & Hother & _).
  split_and!.
  - apply Hsame. vm_compute. left.
  - rewrite Hnew; [vm_compute; reflexivity|].
    vm_compute. apply not_elem_of_nil.
  - apply Hother. intros [_ Hk]. discriminate Hk.
Defined.

(** ** trigger: every subscriber, once, in order *)

(** X2. When an assignment stores a strictly different value into an
    intercepted property, none of the subscribers of the coordinate is on
    the active-call stack and the notification pass returns normally, then
    the pass runs the computation of every subscriber exactly once, in the
    order in which the effects subscribed, and of no other effect. *)
Theorem X2_all_subscribers_run_in_order n s O P obj p old v s' :
  wf s →
  heap s !! O = Some obj → obj !! P = Some p → p_slot p = AccessorSlot old →
  strict_eq v old = false →
  (∀ e, e ∈ subscribers s O P → e ∉ effectsStack s) →
  prop_set (exec n) O P v s = (Normal tt, s') →
  ∃ delta,
    log s' = log s ++ delta ∧
    runs_at (length (effectsStack s)) delta = subscribers s O P ∧
    NoDup (subscribers s O P).
Proof.
  intros Hwf Ho Hk Hp Hne Hidle H.
  apply (prop_set_pass _ _ _ _ _ _ _ _ _ _ Ho Hk Hp Hne) in H
    as (delta & done & Hlog & _ & T & Hall).
  rewrite (Hall eq_refl) in T.
  apply pass_trace_at in T as (_ & Hruns & _).
  eexists. split_and!; [exact Hlog | | apply (wf_nodup _ Hwf)].
  rewrite runs_at_cons, Hruns. clear Hruns Hall.
  revert Hidle. generalize (subscribers s O P) as l.
  induction l as [|e l IH]; intros Hidle; [done|].
  rewrite filter_cons, decide_True by (apply Hidle; left).
  f_equal. apply IH. intros x Hx. apply Hidle. by right.
Qed.

Lemma X2_all_subscribers_run_in_order_witness :
  ∃ delta,
    log (prop_set (exec 10) 1 "p" (VNumber 2) pair_state).2 = log pair_state ++ delta ∧
    runs_at (length (effectsStack pair_state)) delta = subscribers pair_state 1 "p" ∧
    NoDup (subscribers pair_state 1 "p").
Proof.
  destruct (prop_set (exec 10) 1 "p" (VNumber 2) pair_state) as [r s'] eqn:H.
  assert (Hr : r = Normal tt).
  { apply (f_equal fst) in H. vm_compute in H. congruence. }
  subst r.
  apply (X2_all_subscribers_run_in_order 10 pair_state 1 "p"
           {[ "p"%string := mkProperty (AccessorSlot (VNumber 0)) false false ]}
           (mkProperty (AccessorSlot (VNumber 0)) false false)
           (VNumber 0) (VNumber 2) s' pair_state_wf).
  - vm_compute. reflexivity.
  - vm_compute. reflexivity.
  - reflexivity.
  - reflexivity.
  - intros e _. vm_compute. apply not_elem_of_nil.
  - exact H.
Defined.

(** ** The execution context after a run *)

(** X3. Effect runs unwind last-in first-out: whatever a computation does
    (reads, writes, nested effect runs, effects created on the way, throws
    caught or not), when it comes back, normally or by a throw, the
    active-call stack and [currentEffect] are what they were when it
    started.  A script started on a freshly loaded module therefore ends
    with an empty stack and no current effect. *)
Theorem X3_context_restored n p s r s' :
  wf s →
  exec n p s = (r, s') →
  finished r →
  effectsStack s' = effectsStack s ∧ currentEffect s' = currentEffect s.
Proof.
  intros Hwf H Hfin.
  pose proof (exec_wf _ _ _ _ _ Hwf H) as Hwf'.
  apply exec_frame in H as [delta F].
  pose proof (fr_stack _ _ _ _ _ F Hfin) as Hst. split; [done|].
  by rewrite (wf_cur _ Hwf'), (wf_cur _ Hwf), Hst.
Qed.

Lemma X3_context_restored_witness :
  effectsStack (exec 20 (fragile_app (λ st, SetProp st "p" (VNumber 1) (Ret VUndefined)))
                  (init page)).2 = [] ∧
  currentEffect (exec 20 (fragile_app (λ st, SetProp st "p" (VNumber 1) (Ret VUndefined)))
                   (init page)).2 = None.
Proof.
  destruct (exec 20 (fragile_app (λ st, SetProp st "p" (VNumber 1) (Ret VUndefined)))
              (init page)) as [r s'] eqn:H.
  assert (Hr : r = Thrown (VString "boom")).
  { apply (f_equal fst) in H. vm_compute in H. congruence. }
  subst r.
  apply (X3_context_restored 20 _ (init page) _ s' (wf_init page) H I).
Defined.

(** ** createEffect *)

(** X4. [createEffect(fn)] makes a new effect, one that is neither on the
    stack nor subscribed anywhere, remembers [fn] for it, and invokes it
    exactly once before it returns: at the depth of the caller the trace of
    the call shows one invocation and one run, of that effect.  Two calls
    with the same [fn] give two effects. *)
Theorem X4_createEffect_fresh_runs_once n fn s r s' :
  wf s →
  createEffect (exec n) fn s = (r, s') →
  let e := length (closures s) in
  (e ∉ effectsStack s) ∧
  (∀ o k, e ∉ subscribers s o k) ∧
  closures s' !! e = Some fn ∧
  length (closures s) < length (closures s') ∧
  ∃ delta,
    log s' = log s ++ delta ∧
    calls_at (length (effectsStack s)) delta = [e] ∧
    runs_at (length (effectsStack s)) delta = [e].
Proof.
  intros Hwf H e.
  assert (He : e ∉ effectsStack s).
  { intros Hin. apply (wf_stack_valid _ Hwf) in Hin. unfold e in Hin. lia. }
  assert (Hsub : ∀ o k, e ∉ subscribers s o k).
  { intros o k Hin. apply (wf_subs_valid _ Hwf) in Hin. unfold e in Hin. lia. }
  unfold createEffect, bind in H. fold e in H.
  destruct (effect_call (exec n) e _) as [re s1] eqn:Hc.
  assert (s' = s1) as -> by (destruct re; by inversion H).
  apply (effect_call_frame _ (exec_frame n)) in Hc as (delta & F & T).
  change (effectsStack (set_closures (closures s ++ [fn]) s)) with (effectsStack s) in T.
  apply call_trace_at in T as (Hcalls & Hruns & _).
  rewrite decide_False in Hruns by done.
  pose proof (fr_closures _ _ _ _ _ F) as Hpre. simpl in Hpre.
  assert (Hfn : (closures s ++ [fn]) !! e = Some fn).
  { unfold e. rewrite lookup_app_r by done. by rewrite Nat.sub_diag. }
  split_and!; try done.
  - by eapply prefix_lookup_Some.
  - apply prefix_length in Hpre. rewrite length_app in Hpre. simpl in Hpre. lia.
  - exists delta. split; [apply (fr_log _ _ _ _ _ F) | done].
Qed.

Lemma X4_createEffect_fresh_runs_once_witness :
  ∃ delta,
    log (createEffect (exec 5) (Ret VUndefined) counter_state).2
      = log counter_state ++ delta ∧
    calls_at (length (effectsStack counter_state)) delta = [length (closures counter_state)] ∧
    runs_at (length (effectsStack counter_state)) delta = [length (closures counter_state)].
Proof.
  destruct (createEffect (exec 5) (Ret VUndefined) counter_state) as [r s'] eqn:H.
  exact (proj2 (proj2 (proj2 (proj2
           (X4_createEffect_fresh_runs_once 5 (Ret VUndefined) counter_state r s'
              counter_state_wf H))))).
Defined.

(** X5. An effect is subscribed to what its first run reads: when the
    computation handed to [createEffect] starts by reading an intercepted
    property [O.P] and the first run comes back, normally or by a throw,
    the new effect is among the subscribers of [(O, P)] afterwards. *)
Theorem X5_first_run_subscribes n O P k s obj p old r s' :
  wf s →
  heap s !! O = Some obj → obj !! P = Some p → p_slot p = AccessorSlot old →
  createEffect (exec n) (GetProp O P k) s = (r, s') →
  finished r →
  length (closures s) ∈ subscribers s' O P.
Proof.
  intros Hwf Ho Hk Hp H Hfin.
  set (e := length (closures s)) in *.
  set (s0 := set_closures (closures s ++ [GetProp O P k]) s).
  assert (Hwf0 : wf s0) by (by apply wf_set_closures).
  assert (He : e ∉ effectsStack s0).
  { intros Hin. apply (wf_stack_valid _ Hwf) in Hin. unfold e in Hin. lia. }
  assert (Hfn : fn_of s0 e = GetProp O P k).
  { unfold fn_of, s0, e, set_closures; simpl.
    rewrite lookup_app_r by done. by rewrite Nat.sub_diag. }
  set (s1 := enter e (record (EvRun e) (record (EvCall e) s0))).
  assert (Hwf1 : wf s1).
  { apply wf_enter; [by apply wf_record_call_run | |].
    - exists (length (effectsStack s0)). unfold record; simpl.
      apply elem_of_snoc. by right.
    - unfold s0, e, set_closures, record; simpl. rewrite length_app; simpl. lia. }
  unfold createEffect, bind in H. fold e in H. fold s0 in H.
  unfold effect_call in H.
  change (effectsStack (record (EvCall e) s0)) with (effectsStack s0) in H.
  rewrite bool_decide_eq_true_2 in H by (by apply Array_indexOf_spec).
  change (fn_of (record (EvCall e) s0) e) with (fn_of s0 e) in H.
  rewrite Hfn in H. fold s1 in H.
  destruct n as [|n]; simpl in H; [inversion H; by subst|].
  unfold bind in H.
  destruct (prop_get_tracked s1 e O P obj p old eq_refl Ho Hk Hp)
    as (s2 & Hget & _ & Hin).
  rewrite Hget in H.
  pose proof (wf_prop_get _ _ _ _ _ Hwf1 Hget) as Hwf2.
  destruct (exec n (k old) s2) as [r3 s3] eqn:Hk3.
  pose proof (subscription_persists _ _ _ _ _ O P e Hwf2 Hk3 Hin) as Hin3.
  destruct r3; inversion H; subst; try done.
Qed.

Lemma X5_first_run_subscribes_witness :
  length (closures counter_state)
    ∈ subscribers
        (createEffect (exec 5) (GetProp 1 "count" (λ _, Throw (VString "late")))
           counter_state).2 1 "count".
Proof.
  destruct (createEffect (exec 5) (GetProp 1 "count" (λ _, Throw (VString "late")))
              counter_state) as [r s'] eqn:H.
  assert (Hr : r = Thrown (VString "late")).
  { apply (f_equal fst) in H. vm_compute in H. congruence. }
  subst r.
  apply (X5_first_run_subscribes 5 1 "count" (λ _, Throw (VString "late")) counter_state
           {[ "count"%string := mkProperty (AccessorSlot (VNumber 0)) false false ]}
           (mkProperty (AccessorSlot (VNumber 0)) false false) (VNumber 0)
           (Thrown (VString "late")) s' counter_state_wf).
  - vm_compute. reflexivity.
  - vm_compute. reflexivity.
  - reflexivity.
  - exact H.
  - exact I.
Defined.

(** ** Assignments *)


Lemma strict_eq_refl v : v ≠ VNaN → strict_eq v v = true.
Proof. destruct v; simpl; try done; intros _; by apply bool_decide_eq_true. Qed.




(** X7. Assigning to an intercepted property the value it already holds
    changes nothing and notifies no one, for every value but NaN: since
    [NaN !== NaN], assigning NaN to a property that holds NaN stores it and
    runs [trigger] every time. *)
Theorem X7_same_value_assignment call s O P (obj : object) p v :
  heap s !! O = Some obj → obj !! P = Some p → p_slot p = AccessorSlot v →
  (v ≠ VNaN → prop_set call O P v s = (Normal tt, s)) ∧
  (v = VNaN →
   prop_set call O P v s
     = trigger call O P
         (store O obj P (mkProperty (AccessorSlot VNaN) (p_enumerable p) (p_configurable p))
            s)).
Proof.
  intros Ho Hk Hp. unfold prop_set. rewrite Ho, Hk, Hp. unfold strict_neq. split.
  - intros Hv. by rewrite strict_eq_refl.
  - intros ->. done.
Qed.

Lemma X7_same_value_assignment_witness :
  prop_set (exec 5) 1 "count" (VNumber 0) counter_state = (Normal tt, counter_state) ∧
  prop_set (exec 5) 1 "x" VNaN nan_state
    = trigger (exec 5) 1 "x"
        (store 1 {[ "x"%string := mkProperty (AccessorSlot VNaN) false false ]} "x"
           (mkProperty (AccessorSlot VNaN) false false) nan_state).
Proof.
  split.
  - apply (X7_same_value_assignment (exec 5) counter_state 1 "count"
             {[ "count"%string := mkProperty (AccessorSlot (VNumber 0)) false false ]}
             (mkProperty (AccessorSlot (VNumber 0)) false false) (VNumber 0)).
    + vm_compute. reflexivity.
    + vm_compute. reflexivity.
    + reflexivity.
    + discriminate.
  - apply (X7_same_value_assignment (exec 5) nan_state 1 "x"
             {[ "x"%string := mkProperty (AccessorSlot VNaN) false false ]}
             (mkProperty (AccessorSlot VNaN) false false) VNaN).
    + vm_compute. reflexivity.
    + vm_compute. reflexivity.
    + reflexivity.
    + reflexivity.
Defined.

(** ** What the engine never undoes *)

Lemma keeps_refl s : keeps s s.
Proof. constructor; done. Qed.

Lemma keeps_trans s1 s2 s3 : keeps s1 s2 → keeps s2 s3 → keeps s1 s3.
Proof.
  intros [A1 C1 D1 E1] [A2 C2 D2 E2]. constructor.
  - intros o k. etrans; [apply A1 | apply A2].
  - intros o k H. by apply C2, C1.
  - intros H. by apply D2, D1.
  - intros H. by apply E2, E1.
Qed.

(** A state update that leaves the heap, the registry and the stack alone
    keeps everything. *)
Lemma keeps_same s s' :
  heap s' = heap s → depsMap s' = depsMap s →
  effectsStack s' = effectsStack s → keeps s s'.
Proof.
  intros Hh Hd Hst. constructor.
  - intros o k. unfold subscribers. by rewrite Hd.
  - intros o k. unfold intercepted, stored. by rewrite Hh.
  - unfold accessors_hidden. by rewrite Hh.
  - by rewrite Hst.
Qed.

Lemma keeps_track o k s : keeps s (track o k s).
Proof.
  destruct (track_other o k s) as (Hh & Hc & Hce & Hst & Hd).
  destruct (currentEffect s) as [e|] eqn:Hcur;
    [|rewrite track_inactive by done; apply keeps_refl].
  constructor.
  - intros o' k'. rewrite (subscribers_track _ _ _ _ _ _ Hcur).
    destruct (decide (o' = o ∧ k' = k)) as [[-> ->]|]; [|done].
    unfold Set_add. destruct (decide (e ∈ subscribers s o k)); [done|].
    by apply prefix_app_r.
  - intros o' k'. unfold intercepted, stored. by rewrite Hh.
  - unfold accessors_hidden. by rewrite Hh.
  - by rewrite Hst.
Qed.

Lemma keeps_prop_get o k s r s' : prop_get o k s = (r, s') → keeps s s'.
Proof.
  unfold prop_get.
  destruct (heap s !! o) as [obj|]; [|intros [= <- <-]; apply keeps_refl].
  destruct (obj !! k) as [p|]; [|intros [= <- <-]; apply keeps_refl].
  destruct (p_slot p); intros [= <- <-]; [apply keeps_refl | apply keeps_track].
Qed.

Lemma keeps_render el c s r s' : render el c s = (r, s') → keeps s s'.
Proof.
  unfold render. change (document (record (EvRender el c) s)) with (document s).
  destruct (document s !! el) as [old|] eqn:Hel; intros [= <- <-].
  - by apply keeps_same.
  - by apply keeps_same.
Qed.

Lemma keeps_alloc (obj : object) s :
  (∀ k p v, obj !! k = Some p → p_slot p = AccessorSlot v → p_enumerable p = false) →
  keeps s (set_heap (heap s ++ [obj]) s).
Proof.
  intros Hobj. constructor; try done.
  - intros o k (p & v & Hst & Hp). exists p, v. split; [|done].
    unfold stored in *. simpl.
    destruct (heap s !! o) as [o'|] eqn:Ho; [|done].
    by rewrite (lookup_app_l_Some _ _ _ _ Ho).
  - intros Hhid l o' k p v Hl. simpl in Hl.
    apply lookup_app_Some in Hl as [Hl|[_ Hl]]; [by eapply Hhid|].
    apply list_lookup_singleton_Some in Hl as [_ <-]. apply Hobj.
Qed.

Lemma keeps_reactive obj s r s' : reactive obj s = (r, s') → keeps s s'.
Proof.
  intros H. destruct (heap s !! obj) as [o|] eqn:Ho.
  2:{ unfold reactive in H. rewrite Ho in H. inversion H; subst. apply keeps_refl. }
  destruct (reactive_spec s obj o Ho) as (s1 & ro & Hr & Hh & Hro & Hc & Hce & Hst & Hd & _).
  rewrite Hr in H. inversion H; subst s1; clear H.
  pose proof (frame_reactive obj s _ _ True Hr) as [delta F].
  constructor.
  - intros o' k'.
    (* the rounds of the loop only ever call [track] *)
    clear -Hr Ho. unfold reactive in Hr. rewrite Ho in Hr. unfold bind in Hr.
    destruct (forEach _ _ _) as [rr s1] eqn:Hloop.
    assert (s' = s1) as -> by (destruct rr; by inversion Hr).
    clear Hr. change (subscribers s o' k')
      with (subscribers (set_heap (heap s ++ [∅]) s) o' k').
    revert Hloop. generalize (set_heap (heap s ++ [∅]) s) as t.
    induction (Object_keys o) as [|key keys IH]; intros t; simpl.
    + by intros [= <- <-].
    + unfold bind at 1.
      destruct (install obj (length (heap s)) key t) as [ri t1] eqn:Hi.
      assert (Ht1 : subscribers t o' k' `prefix_of` subscribers t1 o' k').
      { unfold install, bind in Hi.
        destruct (prop_get obj key t) as [rg t0] eqn:Hg.
        apply keeps_prop_get in Hg as [Hsub _ _ _].
        assert (depsMap t1 = depsMap t0) as Hdm.
        { destruct rg; try (by inversion Hi).
          destruct (heap t0 !! length (heap s)); [|by inversion Hi].
          destruct (Object_defineProperty _ _ _); by inversion Hi. }
        unfold subscribers in *. rewrite Hdm. apply Hsub. }
      destruct ri; try (intros [= <- <-]; done).
      intros Hrest. etrans; [exact Ht1 | by eapply IH].
  - intros o' k' (p & v & Hsto & Hp). exists p, v. split; [|done].
    unfold stored in *. rewrite Hh.
    destruct (heap s !! o') as [x|] eqn:Hx; [|done].
    by rewrite (lookup_app_l_Some _ _ _ _ Hx).
  - intros Hhid l o' k p v Hl. rewrite Hh in Hl.
    apply lookup_app_Some in Hl as [Hl|[_ Hl]]; [by eapply Hhid|].
    apply list_lookup_singleton_Some in Hl as [_ <-].
    rewrite Hro. destruct (decide (k ∈ Object_keys o)); [|done]. by intros [= <-].
  - by rewrite Hst.
Qed.

Lemma keeps_store o (obj : object) k p s :
  heap s !! o = Some obj →
  (∀ p0 v0, obj !! k = Some p0 → p_slot p0 = AccessorSlot v0 →
            ∃ v, p_slot p = AccessorSlot v) →
  (accessors_hidden s → ∀ v, p_slot p = AccessorSlot v → p_enumerable p = false) →
  keeps s (store o obj k p s).
Proof.
  intros Ho Hkind Hen. constructor; try done.
  - intros o' k' (p0 & v0 & Hst & Hp0). unfold intercepted.
    rewrite (stored_store _ _ _ _ _ _ _ Ho).
    destruct (decide (o' = o ∧ k' = k)) as [[-> ->]|]; [|by exists p0, v0].
    unfold stored in Hst. rewrite Ho in Hst. simpl in Hst.
    destruct (Hkind p0 v0 Hst Hp0) as [v Hv]. by exists p, v.
  - intros Hhid l o' k' p' v' Hl Hk' Hp'.
    unfold store, record, set_heap in Hl; simpl in Hl.
    destruct (decide (l = o)) as [->|Hne].
    + rewrite list_lookup_insert_eq in Hl by (by eapply lookup_lt_Some).
      inversion Hl; subst o'. destruct (decide (k' = k)) as [->|Hnk].
      * rewrite lookup_insert_eq in Hk'. inversion Hk'; subst p'. by eapply Hen.
      * rewrite lookup_insert_ne in Hk' by done. by eapply Hhid.
    + rewrite list_lookup_insert_ne in Hl by done. by eapply Hhid.
Qed.

Section Keeps.
Variable call : prog → M value.
Hypothesis call_keeps : ∀ p s r s', call p s = (r, s') → keeps s s'.

Lemma keeps_effect_call e s r s' : effect_call call e s = (r, s') → keeps s s'.
Proof.
  unfold effect_call.
  change (effectsStack (record (EvCall e) s)) with (effectsStack s).
  case_bool_decide as Hidx.
  - apply Array_indexOf_spec in Hidx.
    destruct (call _ _) as [r3 s3] eqn:Hcall. apply call_keeps in Hcall.
    assert (Hin : keeps s (enter e (record (EvRun e) (record (EvCall e) s)))).
    { constructor; try done. intros Hnd. unfold enter, record; simpl.
      apply NoDup_app. split_and!; [done | | apply NoDup_singleton].
      intros x Hx Hx'. apply list_elem_of_singleton in Hx'. by subst. }
    assert (Hout : keeps s3 (leave s3)).
    { constructor; try done. intros Hnd. unfold leave; simpl.
      unfold Array_pop. eapply sublist_NoDup; [exact Hnd | apply sublist_take]. }
    destruct r3; intros [= <- <-].
    + eapply keeps_trans; [exact Hin|]. by eapply keeps_trans.
    + eapply keeps_trans; [exact Hin|]. by eapply keeps_trans.
    + by eapply keeps_trans.
  - intros [= <- <-]. by apply keeps_same.
Qed.

Lemma keeps_pass l : ∀ s r s', forEach (effect_call call) l s = (r, s') → keeps s s'.
Proof.
  induction l as [|e l IH]; intros s r s'; simpl.
  - intros [= <- <-]. apply keeps_refl.
  - unfold bind. destruct (effect_call call e s) as [re s1] eqn:He.
    apply keeps_effect_call in He.
    destruct re; try (by intros [= <- <-]).
    intros H. apply IH in H. by eapply keeps_trans.
Qed.

Lemma keeps_createEffect fn s r s' : createEffect call fn s = (r, s') → keeps s s'.
Proof.
  unfold createEffect, bind.
  destruct (effect_call call _ _) as [re s1] eqn:He.
  apply keeps_effect_call in He.
  assert (keeps s s1).
  { eapply keeps_trans; [|exact He]. by apply keeps_same. }
  destruct re; by intros [= <- <-].
Qed.

Lemma keeps_prop_set o k v s r s' : prop_set call o k v s = (r, s') → keeps s s'.
Proof.
  unfold prop_set.
  destruct (heap s !! o) as [obj|] eqn:Ho; [|intros [= <- <-]; apply keeps_refl].
  destruct (obj !! k) as [p|] eqn:Hk.
  2:{ intros [= <- <-]. apply keeps_store; [done | | by intros _ ?].
      intros p0 v0 Hp0. by rewrite Hk in Hp0. }
  destruct (p_slot p) as [old|old] eqn:Hp.
  { intros [= <- <-]. apply keeps_store; [done | | by intros _ ?].
    intros p0 v0 Hp0. rewrite Hk in Hp0. inversion Hp0; subst p0. by rewrite Hp. }
  destruct (strict_neq v old); [|intros [= <- <-]; apply keeps_refl].
  rewrite trigger_forEach. intros H. apply keeps_pass in H.
  eapply keeps_trans; [|exact H].
  apply keeps_store; [done | by eexists |].
  intros Hhid v' _. simpl. by eapply Hhid.
Qed.

Lemma keeps_exec_step p s r s' : exec_step call p s = (r, s') → keeps s s'.
Proof.
  destruct p; simpl.
  - intros [= <- <-]. apply keeps_refl.
  - intros [= <- <-]. apply keeps_refl.
  - intros H. apply call_keeps in H. eapply keeps_trans; [|exact H].
    apply keeps_alloc. intros k0 p v Hk Hp.
    destruct (plain_object_literal props k0 p Hk) as [_ [v' Hv']]. congruence.
  - unfold bind. destruct (prop_get o key s) as [[v| |] s1] eqn:H1;
      try (intros [= <- <-]; by eapply keeps_prop_get).
    intros H. apply call_keeps in H. apply keeps_prop_get in H1.
    by eapply keeps_trans.
  - unfold bind. destruct (prop_set call o key v s) as [[[]| |] s1] eqn:H1;
      try (intros [= <- <-]; by eapply keeps_prop_set).
    intros H. apply call_keeps in H. apply keeps_prop_set in H1.
    by eapply keeps_trans.
  - unfold bind. destruct (reactive o s) as [[v| |] s1] eqn:H1;
      try (intros [= <- <-]; by eapply keeps_reactive).
    intros H. apply call_keeps in H. apply keeps_reactive in H1.
    by eapply keeps_trans.
  - unfold bind. destruct (createEffect call p1 s) as [[[]| |] s1] eqn:H1;
      try (intros [= <- <-]; by eapply keeps_createEffect).
    intros H. apply call_keeps in H. apply keeps_createEffect in H1.
    by eapply keeps_trans.
  - unfold bind. destruct (render element content s) as [[[]| |] s1] eqn:H1;
      try (intros [= <- <-]; by eapply keeps_render).
    intros H. apply call_keeps in H. apply keeps_render in H1.
    by eapply keeps_trans.
  - destruct (call p s) as [[v|e|] s1] eqn:H1; apply call_keeps in H1.
    + intros H. apply call_keeps in H. by eapply keeps_trans.
    + unfold bind. destruct (call (handler e) s1) as [[v|e'|] s2] eqn:H2;
        apply call_keeps in H2.
      * intros H. apply call_keeps in H.
        eapply keeps_trans; [exact H1|]. by eapply keeps_trans.
      * intros [= <- <-]. by eapply keeps_trans.
      * intros [= <- <-]. by eapply keeps_trans.
    + by intros [= <- <-].
Qed.
End Keeps.

Lemma exec_keeps n : ∀ p s r s', exec n p s = (r, s') → keeps s s'.
Proof.
  induction n as [|n IH]; intros p s r s'; simpl.
  - intros [= <- <-]. apply keeps_refl.
  - by apply keeps_exec_step.
Qed.

(** Every state a script reaches keeps its accessors out of [Object.keys]
    and holds no effect twice on the stack. *)
Lemma script_hidden doc n p : accessors_hidden (exec n p (init doc)).2.
Proof.
  destruct (exec n p (init doc)) as [r s] eqn:H. simpl.
  apply exec_keeps in H. apply (k_hidden _ _ H).
  intros l obj k q v Hl. simpl in Hl. by destruct l.
Qed.

(** X8. The registry only grows.  Whatever runs, and however it ends, the
    subscribers of every coordinate afterwards are the subscribers before,
    in the same order, followed by the new ones: no subscription is ever
    removed or moved, so an effect stays subscribed to a property also when
    its later runs no longer read it. *)
Theorem X8_registry_only_grows n p s o k :
  subscribers s o k `prefix_of` subscribers (exec n p s).2 o k.
Proof.
  destruct (exec n p s) as [r s'] eqn:H. simpl.
  apply exec_keeps in H. apply (k_subs _ _ H).
Qed.

(** X10. Interception is permanent and invisible to [Object.keys].  In a
    state whose accessors are all non-enumerable (every state a script
    reaches is one), a property that [reactive] intercepts is still
    intercepted after any run, whatever is assigned to it, and it is never
    among the keys [Object.keys] lists for its object. *)
Theorem X10_interception_permanent n p s o k :
  accessors_hidden s →
  intercepted s o k →
  intercepted (exec n p s).2 o k ∧
  ∀ obj' : object, heap (exec n p s).2 !! o = Some obj' → k ∉ Object_keys obj'.
Proof.
  intros Hhid Hint.
  destruct (exec n p s) as [r s'] eqn:H. simpl.
  apply exec_keeps in H.
  pose proof (k_intercepted _ _ H o k Hint) as (q & v & Hst & Hq).
  split; [by exists q, v|].
  intros obj' Ho' Hin. apply elem_of_Object_keys in Hin as (q' & Hq' & Hen).
  unfold stored in Hst. rewrite Ho' in Hst. simpl in Hst.
  assert (q' = q) as -> by congruence.
  pose proof (k_hidden _ _ H Hhid o obj' k q v Ho' Hq' Hq). congruence.
Qed.

Lemma X10_interception_permanent_witness :
  intercepted (exec 10 (SetProp 1 "count" (VString "text") (Ret VUndefined))
                 counter_state).2 1 "count" ∧
  ∀ obj' : object,
    heap (exec 10 (SetProp 1 "count" (VString "text") (Ret VUndefined))
            counter_state).2 !! 1 = Some obj' →
    "count"%string ∉ Object_keys obj'.
Proof.
  apply X10_interception_permanent.
  - apply script_hidden.
  - exists (mkProperty (AccessorSlot (VNumber 0)) false false), (VNumber 0).
    split; [vm_compute; reflexivity | reflexivity].
Defined.

(** X11. In a state whose accessors are all non-enumerable, [reactive(obj)]
    on any existing object (plain, observed, or observed with properties
    added later) returns normally and does nothing but allocate the result:
    the registry, the execution context, the document, the trace and every
    existing object are as before, so calling it inside an effect run
    subscribes nothing.  The result intercepts exactly the keys
    [Object.keys(obj)] lists, and none of the keys that are intercepted on
    [obj] itself. *)
Theorem X11_reactive_allocates_only s obj (o : object) :
  accessors_hidden s →
  heap s !! obj = Some o →
  ∃ ro : object,
    reactive obj s = (Normal (length (heap s)), set_heap (heap s ++ [ro]) s) ∧
    (∀ k, ro !! k = if decide (k ∈ Object_keys o)
                    then Some (accessor_property (value_at o k)) else None) ∧
    (∀ k, intercepted s obj k → ro !! k = None).
Proof.
  intros Hhid Ho.
  assert (Hdatakeys : ∀ k q, k ∈ Object_keys o → o !! k = Some q →
                             ∃ v, p_slot q = DataSlot v).
  { intros k q Hin Hq. apply elem_of_Object_keys in Hin as (q' & Hq' & Hen).
    assert (q' = q) as -> by congruence.
    destruct (p_slot q) as [v|v] eqn:Hs; [by exists v|].
    pose proof (Hhid obj o k q v Ho Hq Hs). congruence. }
  pose proof (lookup_lt_Some _ _ _ Ho) as Hlt.
  destruct (install_loop obj (length (heap s)) o (Object_keys o)
              (set_heap (heap s ++ [∅]) s) ∅)
    as (s' & Hloop & Hh & Hc & Hce & Hst & Hd & Hdata).
  - lia.
  - simpl. by rewrite lookup_app_l.
  - simpl. rewrite lookup_app_r by done. by rewrite Nat.sub_diag.
  - apply NoDup_Object_keys.
  - intros k _. apply lookup_empty.
  - destruct (Hdata Hdatakeys) as [Hdeps Hlog].
    exists (installed o (Object_keys o) ∅).
    assert (Hlook : ∀ k, installed o (Object_keys o) ∅ !! k =
              if decide (k ∈ Object_keys o)
              then Some (accessor_property (value_at o k)) else None).
    { intros k. rewrite installed_lookup. by rewrite lookup_empty. }
    split_and!; [|done|].
    + unfold reactive. rewrite Ho. unfold bind. rewrite Hloop. f_equal.
      simpl in Hh. rewrite insert_app_r_alt in Hh by done.
      rewrite Nat.sub_diag in Hh. simpl in Hh.
      destruct s', s; unfold set_heap; simpl in *. by subst.
    + intros k (q & v & Hsto & Hq). rewrite Hlook.
      destruct (decide (k ∈ Object_keys o)) as [Hin|]; [|done].
      unfold stored in Hsto. rewrite Ho in Hsto. simpl in Hsto.
      destruct (Hdatakeys k q Hin Hsto) as [v' Hv']. congruence.
Qed.

Lemma X11_reactive_allocates_only_witness :
  ∃ ro : object,
    reactive 1 counter_state_running
      = (Normal (length (heap counter_state_running)),
         set_heap (heap counter_state_running ++ [ro]) counter_state_running) ∧
    (∀ k, ro !! k =
          if decide (k ∈ Object_keys
                           ({[ "count"%string :=
                                 mkProperty (AccessorSlot (VNumber 0)) false false ]}
                              : gmap string property))
          then Some (accessor_property
                       (value_at {[ "count"%string :=
                                      mkProperty (AccessorSlot (VNumber 0)) false false ]} k))
          else None) ∧
    (∀ k, intercepted counter_state_running 1 k → ro !! k = None).
Proof.
  apply X11_reactive_allocates_only.
  - pose proof (script_hidden page 20 (counter_app (λ _, Ret VUndefined))) as Hh.
    intros l obj k q v Hl. apply (Hh l obj k q v). exact Hl.
  - vm_compute. reflexivity.
Defined.

(** ** The depth of nesting *)

Lemma distinct_bounded (l : list nat) N :
  NoDup l → (∀ x, x ∈ l → x < N) → length l ≤ N.
Proof.
  intros Hnd Hlt.
  assert (H : l ⊆+ seq 0 N).
  { apply NoDup_submseteq; [done|]. intros x Hx. apply elem_of_seq.
    specialize (Hlt x Hx). lia. }
  apply submseteq_length in H. by rewrite length_seq in H.
Qed.

(** X12. No effect is ever on the active-call stack twice, so effect runs
    never nest deeper than the number of effects created so far: from a
    well-formed state whose stack has no duplicate (the state of a freshly
    loaded module is one) any run, finished or interrupted, stops in a state
    whose stack has no duplicate and is no longer than the table of
    effects. *)
Theorem X12_nesting_bounded n p s :
  wf s →
  NoDup (effectsStack s) →
  NoDup (effectsStack (exec n p s).2) ∧
  length (effectsStack (exec n p s).2) ≤ length (closures (exec n p s).2).
Proof.
  intros Hwf Hnd.
  destruct (exec n p s) as [r s'] eqn:H. simpl.
  pose proof (exec_wf _ _ _ _ _ Hwf H) as Hwf'.
  apply exec_keeps in H. pose proof (k_distinct _ _ H Hnd) as Hnd'.
  split; [done|]. apply distinct_bounded; [done|]. apply (wf_stack_valid _ Hwf').
Qed.

Lemma X12_nesting_bounded_witness :
  NoDup (effectsStack (exec 4 (bridge_app (λ st, SetProp st "q" (VNumber 1) (Ret VUndefined)))
                         (init page)).2) ∧
  length (effectsStack (exec 4 (bridge_app (λ st, SetProp st "q" (VNumber 1)
                                                    (Ret VUndefined)))
                          (init page)).2)
    ≤ length (closures (exec 4 (bridge_app (λ st, SetProp st "q" (VNumber 1)
                                                     (Ret VUndefined)))
                          (init page)).2).
Proof.
  apply X12_nesting_bounded.
  - apply wf_init.
  - apply NoDup_nil_2.
Defined.

(** ** More fuel, same outcome *)

Section Monotone.
Variables call call' : prog → M value.
Hypothesis call_le : ∀ p s r s', call p s = (r, s') → finished r → call' p s = (r, s').

Lemma effect_call_le e s r s' :
  effect_call call e s = (r, s') → finished r → effect_call call' e s = (r, s').
Proof.
  unfold effect_call. case_bool_decide; [|done].
  destruct (call _ _) as [r3 s3] eqn:Hc.
  destruct r3 as [v|v|]; intros [= <- <-] Hfin; try done;
    by rewrite (call_le _ _ _ _ Hc I).
Qed.

Lemma pass_le l : ∀ s r s',
  forEach (effect_call call) l s = (r, s') → finished r →
  forEach (effect_call call') l s = (r, s').
Proof.
  induction l as [|e l IH]; intros s r s'; simpl; [done|].
  unfold bind. destruct (effect_call call e s) as [re s1] eqn:He.
  destruct re as [v|v|].
  - intros H Hfin. rewrite (effect_call_le _ _ _ _ He I). by apply IH.
  - intros [= <- <-] _. by rewrite (effect_call_le _ _ _ _ He I).
  - by intros [= <- <-] [].
Qed.

Lemma prop_set_le o k v s r s' :
  prop_set call o k v s = (r, s') → finished r → prop_set call' o k v s = (r, s').
Proof.
  unfold prop_set.
  destruct (heap s !! o) as [obj|]; [|done].
  destruct (obj !! k) as [p|]; [|done].
  destruct (p_slot p); [done|].
  destruct (strict_neq v v0); [|done].
  rewrite !trigger_forEach. apply pass_le.
Qed.

Lemma createEffect_le fn s r s' :
  createEffect call fn s = (r, s') → finished r → createEffect call' fn s = (r, s').
Proof.
  unfold createEffect, bind.
  destruct (effect_call call _ _) as [re s1] eqn:He.
  destruct re as [v|v|].
  - intros H _. by rewrite (effect_call_le _ _ _ _ He I).
  - intros [= <- <-] _. by rewrite (effect_call_le _ _ _ _ He I).
  - by intros [= <- <-] [].
Qed.

Lemma exec_step_le p s r s' :
  exec_step call p s = (r, s') → finished r → exec_step call' p s = (r, s').
Proof.
  destruct p; simpl; try done.
  - apply call_le.
  - unfold bind. destruct (prop_get o key s) as [[v| |] s1]; try done. apply call_le.
  - unfold bind. destruct (prop_set call o key v s) as [[[]|x|] s1] eqn:H1.
    + intros H Hfin. rewrite (prop_set_le _ _ _ _ _ _ H1 I). by apply call_le.
    + intros [= <- <-] _. by rewrite (prop_set_le _ _ _ _ _ _ H1 I).
    + by intros [= <- <-] [].
  - unfold bind. destruct (reactive o s) as [[v| |] s1]; try done. apply call_le.
  - unfold bind. destruct (createEffect call p1 s) as [[[]|x|] s1] eqn:H1.
    + intros H Hfin. rewrite (createEffect_le _ _ _ _ H1 I). by apply call_le.
    + intros [= <- <-] _. by rewrite (createEffect_le _ _ _ _ H1 I).
    + by intros [= <- <-] [].
  - unfold bind. destruct (render element content s) as [[[]| |] s1]; try done.
    apply call_le.
  - destruct (call p s) as [[v|e|] s1] eqn:H1.
    + intros H Hfin. rewrite (call_le _ _ _ _ H1 I). by apply call_le.
    + rewrite (call_le _ _ _ _ H1 I). unfold bind.
      destruct (call (handler e) s1) as [[v|e'|] s2] eqn:H2.
      * intros H Hfin. rewrite (call_le _ _ _ _ H2 I). by apply call_le.
      * intros [= <- <-] _. by rewrite (call_le _ _ _ _ H2 I).
      * by intros [= <- <-] [].
    + by intros [= <- <-] [].
Qed.
End Monotone.

Lemma exec_S n : ∀ p s r s',
  exec n p s = (r, s') → finished r → exec (S n) p s = (r, s').
Proof.
  induction n as [|n IH]; intros p s r s'.
  - simpl. by intros [= <- <-] [].
  - intros H Hfin. change (exec (S (S n)) p) with (exec_step (exec (S n)) p).
    eapply exec_step_le; [exact IH | exact H | exact Hfin].
Qed.

Lemma exec_le n m p s r s' :
  n ≤ m → exec n p s = (r, s') → finished r → exec m p s = (r, s').
Proof.
  induction 1 as [|m _ IH]; [done|]. intros H Hfin. apply exec_S; [by apply IH | done].
Qed.

(** ** Runs come back *)

Lemma prop_get_ctx o k s r s' :
  prop_get o k s = (r, s') →
  finished r ∧ effectsStack s' = effectsStack s ∧ closures s' = closures s.
Proof.
  unfold prop_get.
  destruct (heap s !! o) as [obj|]; [|by intros [= <- <-]].
  destruct (obj !! k) as [p|]; [|by intros [= <- <-]].
  destruct (p_slot p); intros [= <- <-]; [done|].
  destruct (track_other o k s) as (_ & Hc & _ & Hst & _). done.
Qed.

Lemma reactive_ctx o s r s' :
  reactive o s = (r, s') →
  finished r ∧ effectsStack s' = effectsStack s ∧ closures s' = closures s.
Proof.
  intros H. destruct (heap s !! o) as [obj|] eqn:Ho.
  - destruct (reactive_spec s o obj Ho) as (s1 & ro & Hr & _ & _ & Hc & _ & Hst & _).
    rewrite Hr in H. by inversion H; subst.
  - unfold reactive in H. rewrite Ho in H. by inversion H; subst.
Qed.

Lemma render_ctx el c s r s' :
  render el c s = (r, s') →
  finished r ∧ effectsStack s' = effectsStack s ∧ closures s' = closures s.
Proof.
  unfold render. destruct (document _ !! el); by intros [= <- <-].
Qed.

Lemma settled_after n p s r s' :
  settled s → exec n p s = (r, s') → finished r → closures s' = closures s →
  settled s' ∧ effectsStack s' = effectsStack s.
Proof.
  intros (Hwf & Hnd & Hnc) H Hfin Hc.
  pose proof (exec_wf _ _ _ _ _ Hwf H) as Hwf'.
  apply exec_frame in H as [delta F].
  pose proof (fr_stack _ _ _ _ _ F Hfin) as Hst.
  split; [|done]. split_and!; [done | by rewrite Hst | by rewrite Hc].
Qed.

Section Halting.
Variable bound : nat.
Hypothesis nested_halts : ∀ p s,
  no_create p → settled s →
  length (closures s) - length (effectsStack s) < bound → halts p s.

Lemma pass_halts l : ∀ s,
  settled s →
  length (closures s) - length (effectsStack s) ≤ bound →
  (∀ e, e ∈ l → e < length (closures s)) →
  ∃ n r s',
    forEach (effect_call (exec n)) l s = (r, s') ∧ finished r ∧
    closures s' = closures s ∧ settled s' ∧ effectsStack s' = effectsStack s.
Proof.
  induction l as [|e l IH]; intros s Hset Hm Hvalid.
  { exists 0, (Normal tt), s. by split_and!. }
  destruct Hset as (Hwf & Hnd & Hnc).
  assert (He : e < length (closures s)) by (apply Hvalid; left).
  assert (Hl : ∀ x, x ∈ l → x < length (closures s)).
  { intros x Hx. apply Hvalid. by right. }
  destruct (decide (e ∈ effectsStack s)) as [Hin|Hnin].
  - set (s1 := record (EvCall e) s).
    assert (Hskip : ∀ n, effect_call (exec n) e s = (Normal VUndefined, s1)).
    { intros n. unfold effect_call.
      change (effectsStack (record (EvCall e) s)) with (effectsStack s).
      rewrite bool_decide_eq_false_2; [done|]. rewrite Array_indexOf_spec. tauto. }
    assert (Hset1 : settled s1).
    { split_and!; try done. apply wf_record; [done.. |].
      intros x [= <-]. by apply (wf_stack_ran _ Hwf). }
    destruct (IH s1 Hset1 Hm Hl) as (n & r & s' & Hrest & Hfin & Hc & Hset' & Hst).
    exists n, r, s'. simpl. unfold bind. rewrite Hskip. by split_and!.
  - set (s0 := enter e (record (EvRun e) (record (EvCall e) s))).
    assert (Hwf0 : wf s0).
    { apply wf_enter; [by apply wf_record_call_run | | done].
      exists (length (effectsStack s)). unfold record; simpl.
      apply elem_of_snoc. by right. }
    assert (Hnd0 : NoDup (effectsStack s0)).
    { unfold s0, enter, record; simpl. apply NoDup_app.
      split_and!; [done | | apply NoDup_singleton].
      intros x Hx Hx'. apply list_elem_of_singleton in Hx'. by subst. }
    assert (Hset0 : settled s0) by (by split_and!).
    assert (Hlen : length (effectsStack s0) ≤ length (closures s0)).
    { apply distinct_bounded; [done | apply (wf_stack_valid _ Hwf0)]. }
    assert (Hm0 : length (closures s0) - length (effectsStack s0) < bound).
    { unfold s0, enter, record in *; simpl in *. rewrite length_app in *. simpl in *. lia. }
    assert (Hfn : no_create (fn_of s e)).
    { unfold fn_of. destruct (closures s !! e) as [fn|] eqn:Hfn; simpl; [|constructor].
      by eapply (Forall_lookup_1 _ _ _ _ Hnc). }
    destruct (nested_halts (fn_of s e) s0 Hfn Hset0 Hm0)
      as (n1 & r1 & s1 & Hrun & Hfin1 & Hc1).
    destruct (settled_after _ _ _ _ _ Hset0 Hrun Hfin1 Hc1)
      as ((Hwf1 & Hnd1 & Hnc1) & Hst1).
    assert (Hst2 : effectsStack (leave s1) = effectsStack s).
    { unfold leave; simpl. rewrite Hst1. unfold s0, enter, record; simpl.
      apply Array_pop_push. }
    assert (Hset2 : settled (leave s1)).
    { split_and!; [by apply wf_leave | by rewrite Hst2 | done]. }
    assert (Hcall : effect_call (exec n1) e s = (r1, leave s1)).
    { unfold effect_call.
      change (effectsStack (record (EvCall e) s)) with (effectsStack s).
      rewrite bool_decide_eq_true_2 by (by apply Array_indexOf_spec).
      change (fn_of (record (EvCall e) s) e) with (fn_of s e).
      fold s0. rewrite Hrun. by destruct r1. }
    destruct r1 as [v|v|]; [| |done].
    + destruct (IH (leave s1)) as (n2 & r & s' & Hrest & Hfin & Hc & Hset' & Hst);
        [done | rewrite Hst2; simpl; rewrite Hc1; exact Hm
        | intros x Hx; simpl; rewrite Hc1; by apply Hl |].
      exists (n1 `max` n2), r, s'. simpl. unfold bind.
      rewrite (effect_call_le (exec n1) (exec (n1 `max` n2))
                 (λ p t r' t', exec_le n1 _ p t r' t' (Nat.le_max_l n1 n2)) _ _ _ _ Hcall I).
      rewrite (pass_le (exec n2) (exec (n1 `max` n2))
                 (λ p t r' t', exec_le n2 _ p t r' t' (Nat.le_max_r n1 n2)) _ _ _ _ Hrest Hfin).
      split_and!; try done.
      * rewrite Hc. simpl. by rewrite Hc1.
      * by rewrite Hst.
    + exists n1, (Thrown v), (leave s1). simpl. unfold bind. rewrite Hcall.
      by split_and!.
Qed.

Lemma prop_set_halts o k v s :
  settled s →
  length (closures s) - length (effectsStack s) ≤ bound →
  ∃ n r s',
    prop_set (exec n) o k v s = (r, s') ∧ finished r ∧
    closures s' = closures s ∧ settled s' ∧ effectsStack s' = effectsStack s.
Proof.
  intros Hset Hm. pose proof Hset as (Hwf & Hnd & Hnc).
  assert (Hstore : ∀ obj p, settled (store o obj k p s)).
  { intros obj p. split_and!; [by apply wf_store | done | done]. }
  unfold prop_set.
  destruct (heap s !! o) as [obj|]; [|by exists 0, (Thrown TypeError), s].
  destruct (obj !! k) as [p|]; [|by eexists 0, _, _].
  destruct (p_slot p) as [old|old]; [by eexists 0, _, _|].
  destruct (strict_neq v old); [|by exists 0, (Normal tt), s].
  set (s1 := store o obj k _ s).
  destruct (pass_halts (subscribers s o k) s1 (Hstore _ _) Hm)
    as (n & r & s' & Hpass & Hfin & Hc & Hset' & Hst).
  { intros e He. by apply (wf_subs_valid _ Hwf o k). }
  exists n, r, s'. rewrite trigger_forEach. by split_and!.
Qed.

Lemma halts_step p :
  no_create p → ∀ s,
  settled s →
  length (closures s) - length (effectsStack s) ≤ bound →
  halts p s.
Proof.
  induction 1 as [v|v|props k _ IH|o key k _ IH|o key v k _ IH|o k _ IH
                 |el c k _ IH|body handler k _ IHb _ IHh _ IHk];
    intros s Hset Hm; pose proof Hset as (Hwf & Hnd & Hnc).
  - by exists 1, (Normal v), s.
  - by exists 1, (Thrown v), s.
  - destruct (IH (length (heap s)) (set_heap (heap s ++ [object_literal props]) s))
      as (n & r & s' & Hrun & Hfin & Hc); [| done |].
    { split_and!; [by apply wf_set_heap | done | done]. }
    by exists (S n), r, s'.
  - destruct (prop_get o key s) as [rg s1] eqn:Hg.
    destruct (prop_get_ctx _ _ _ _ _ Hg) as (Hfg & Hst1 & Hc1).
    pose proof (wf_prop_get _ _ _ _ _ Hwf Hg) as Hwf1.
    destruct rg as [x|x|]; [| |done].
    + destruct (IH x s1) as (n & r & s' & Hrun & Hfin & Hc).
      { split_and!; [done | by rewrite Hst1 | by rewrite Hc1]. }
      { by rewrite Hst1, Hc1. }
      exists (S n), r, s'. simpl. unfold bind. rewrite Hg.
      split_and!; [done | done | by rewrite Hc].
    + exists 1, (Thrown x), s1. simpl. unfold bind. by rewrite Hg.
  - destruct (prop_set_halts o key v s Hset Hm)
      as (n1 & r1 & s1 & Hset1 & Hfin1 & Hc1 & Hsett1 & Hst1).
    destruct r1 as [[]|x|]; [| |done].
    + destruct (IH s1 Hsett1) as (n2 & r & s' & Hrun & Hfin & Hc).
      { by rewrite Hst1, Hc1. }
      exists (S (n1 `max` n2)), r, s'. simpl. unfold bind.
      rewrite (prop_set_le (exec n1) (exec (n1 `max` n2))
                 (λ p t r' t', exec_le n1 _ p t r' t' (Nat.le_max_l n1 n2))
                 _ _ _ _ _ _ Hset1 I).
      rewrite (exec_le n2 (n1 `max` n2) _ _ _ _ (Nat.le_max_r n1 n2) Hrun Hfin).
      split_and!; [done | done | by rewrite Hc].
    + exists (S n1), (Thrown x), s1. simpl. unfold bind. by rewrite Hset1.
  - destruct (reactive o s) as [rg s1] eqn:Hg.
    destruct (reactive_ctx _ _ _ _ Hg) as (Hfg & Hst1 & Hc1).
    pose proof (wf_reactive _ _ _ _ Hwf Hg) as Hwf1.
    destruct rg as [x|x|]; [| |done].
    + destruct (IH x s1) as (n & r & s' & Hrun & Hfin & Hc).
      { split_and!; [done | by rewrite Hst1 | by rewrite Hc1]. }
      { by rewrite Hst1, Hc1. }
      exists (S n), r, s'. simpl. unfold bind. rewrite Hg.
      split_and!; [done | done | by rewrite Hc].
    + exists 1, (Thrown x), s1. simpl. unfold bind. by rewrite Hg.
  - destruct (render el c s) as [rg s1] eqn:Hg.
    destruct (render_ctx _ _ _ _ _ Hg) as (Hfg & Hst1 & Hc1).
    pose proof (wf_render _ _ _ _ _ Hwf Hg) as Hwf1.
    destruct rg as [[]|x|]; [| |done].
    + destruct (IH s1) as (n & r & s' & Hrun & Hfin & Hc).
      { split_and!; [done | by rewrite Hst1 | by rewrite Hc1]. }
      { by rewrite Hst1, Hc1. }
      exists (S n), r, s'. simpl. unfold bind. rewrite Hg.
      split_and!; [done | done | by rewrite Hc].
    + exists 1, (Thrown x), s1. simpl. unfold bind. by rewrite Hg.
  - destruct (IHb s Hset Hm) as (n1 & r1 & s1 & Hrun1 & Hfin1 & Hc1).
    destruct (settled_after _ _ _ _ _ Hset Hrun1 Hfin1 Hc1) as (Hset1 & Hst1).
    assert (Hm1 : length (closures s1) - length (effectsStack s1) ≤ bound)
      by (by rewrite Hst1, Hc1).
    destruct r1 as [x|x|]; [| |done].
    + destruct (IHk x s1 Hset1 Hm1) as (n2 & r & s' & Hrun & Hfin & Hc).
      exists (S (n1 `max` n2)), r, s'. simpl.
      rewrite (exec_le n1 (n1 `max` n2) _ _ _ _ (Nat.le_max_l n1 n2) Hrun1 I).
      rewrite (exec_le n2 (n1 `max` n2) _ _ _ _ (Nat.le_max_r n1 n2) Hrun Hfin).
      split_and!; [done | done | by rewrite Hc].
    + destruct (IHh x s1 Hset1 Hm1) as (n2 & r2 & s2 & Hrun2 & Hfin2 & Hc2).
      destruct (settled_after _ _ _ _ _ Hset1 Hrun2 Hfin2 Hc2) as (Hset2 & Hst2).
      assert (Hm2 : length (closures s2) - length (effectsStack s2) ≤ bound)
        by (by rewrite Hst2, Hc2).
      destruct r2 as [y|y|]; [| |done].
      * destruct (IHk y s2 Hset2 Hm2) as (n3 & r & s' & Hrun & Hfin & Hc).
        exists (S (n1 `max` (n2 `max` n3))), r, s'. simpl.
        rewrite (exec_le n1 _ _ _ _ _ (Nat.le_max_l n1 (n2 `max` n3)) Hrun1 I).
        unfold bind.
        rewrite (exec_le n2 (n1 `max` (n2 `max` n3)) _ _ _ _ ltac:(lia) Hrun2 I).
        rewrite (exec_le n3 (n1 `max` (n2 `max` n3)) _ _ _ _ ltac:(lia) Hrun Hfin).
        split_and!; [done | done | by rewrite Hc, Hc2].
      * exists (S (n1 `max` n2)), (Thrown y), s2. simpl.
        rewrite (exec_le n1 (n1 `max` n2) _ _ _ _ (Nat.le_max_l n1 n2) Hrun1 I).
        unfold bind.
        rewrite (exec_le n2 (n1 `max` n2) _ _ _ _ (Nat.le_max_r n1 n2) Hrun2 I).
        split_and!; [done | done | by rewrite Hc2].
Qed.
End Halting.

Lemma halts_bounded : ∀ bound p s,
  no_create p → settled s →
  length (closures s) - length (effectsStack s) ≤ bound → halts p s.
Proof.
  induction bound as [bound IH] using lt_wf_ind. intros p s Hp Hset Hm.
  apply (halts_step bound); [|done..].
  intros p' t Hp' Ht Hlt. by apply (IH _ Hlt).
Qed.

(** X13. With a fixed set of effects every run comes back.  If neither the
    computation that is run nor the computation of any effect created so
    far calls [createEffect], then from a well-formed state whose stack has
    no duplicate the run returns or throws once it is given enough fuel, and
    more fuel does not change its outcome.  Effects that assign each other's
    properties therefore do not re-run each other without end: the guard of
    the wrapper cuts every cycle, because the effects of a cascade are all
    on the stack. *)
Theorem X13_runs_come_back p s :
  no_create p →
  wf s → NoDup (effectsStack s) → Forall no_create (closures s) →
  ∃ n r s', exec n p s = (r, s') ∧ finished r ∧
            ∀ m, n ≤ m → exec m p s = (r, s').
Proof.
  intros Hp Hwf Hnd Hnc.
  destruct (halts_bounded _ p s Hp (conj Hwf (conj Hnd Hnc)) (le_n _))
    as (n & r & s' & Hrun & Hfin & _).
  exists n, r, s'. split_and!; [done | done |].
  intros m Hm. by eapply exec_le.
Qed.

Lemma X13_runs_come_back_witness :
  ∃ n r s', exec n (SetProp 1 "q" (VNumber 1) (Ret VUndefined)) bridge_state = (r, s') ∧
            finished r ∧
            ∀ m, n ≤ m →
                 exec m (SetProp 1 "q" (VNumber 1) (Ret VUndefined)) bridge_state = (r, s').
Proof.
  apply X13_runs_come_back.
  - repeat constructor.
  - apply bridge_state_wf.
  - vm_compute. apply NoDup_nil_2.
  - assert (Hc : closures bridge_state =
                 [GetProp 1 "p" (λ _, Ret VUndefined);
                  GetProp 1 "q" (λ v, SetProp 1 "p" v (Ret VUndefined))]).
    { vm_compute. reflexivity. }
    rewrite Hc. repeat constructor.
Defined.
